(** * Representation similarity (CKA / CCA): a shallow embedding

    The program is the code cell of [representation_similarity/Demo.ipynb]:
    [gram_linear], [gram_rbf], [center_gram], [cka],
    [_debiased_dot_product_similarity_helper], [feature_space_linear_cka]
    and [cca].

    Numbers are modelled in exact arithmetic: a float64 is a real number of
    the Standard Library.  Division of reals is total here ([x / 0 = 0]) while
    numpy warns and answers [inf] or [nan]; a statement about one value keeps
    the divisors of the code away from zero, and a statement that two calls
    agree compares the same quotient of equal terms.  The one division python
    itself performs, [n / (n - 2.)], raises [ZeroDivisionError] on zero.

    A numpy array is a shape together with its entries read by index, so that
    broadcasting, in-place updates and the shape tests of [dot] are those of
    numpy; python exceptions are values of an error monad.

    What the exact model cannot say, that a tolerance holds of the rounded
    results, is said of a second embedding of [gram_linear], [center_gram],
    [cka] and [feature_space_linear_cka] over binary64 numbers, in [f64]. *)

From Stdlib Require Import PrimFloat.
From Stdlib Require Import Reals Lra Lia Psatz List Arith Bool String ZArith.
Import ListNotations.
Open Scope R_scope.

(** * Definitions *)

(** ** Exceptions and the error monad *)

Inductive exn : Type :=
| ValueError (msg : string)
| ZeroDivisionError (msg : string).

Definition exn_name (e : exn) : string :=
  match e with
  | ValueError _ => "ValueError"
  | ZeroDivisionError _ => "ZeroDivisionError"
  end.

Inductive result (A : Type) : Type :=
| Ok (a : A)
| Raise (e : exn).

Arguments Ok {A} a.
Arguments Raise {A} e.

Definition bind {A B : Type} (m : result A) (k : A -> result B) : result B :=
  match m with
  | Ok a => k a
  | Raise e => Raise e
  end.

Notation "x <- m ;; k" := (bind m (fun x => k))
  (at level 61, m at next level, right associativity).

Definition raises {A : Type} (m : result A) : Prop :=
  exists e, m = Raise e.

(** ** Finite sums and finite conjunctions *)

(** [rsum n f] is [f 0 + ... + f (n-1)]. *)
Fixpoint rsum (n : nat) (f : nat -> R) : R :=
  match n with
  | O => 0
  | S k => rsum k f + f k
  end.

(** [rsum2 n m f] sums [f i j] over [i < n] and [j < m]. *)
Definition rsum2 (n m : nat) (f : nat -> nat -> R) : R :=
  rsum n (fun i => rsum m (fun j => f i j)).

Fixpoint all_n (n : nat) (p : nat -> bool) : bool :=
  match n with
  | O => true
  | S k => all_n k p && p k
  end.

Definition Rleb (x y : R) : bool :=
  if Rle_dec x y then true else false.

(** ** Arrays *)

(** A one-dimensional array. *)
Record ndarray1 : Type := mk1 { len : nat; at1 : nat -> R }.

(** A two-dimensional array of shape [(shape0, shape1)]. *)
Record ndarray : Type := mk2 { shape0 : nat; shape1 : nat; item : nat -> nat -> R }.

(** [np.array([[...], ...])]. *)
Definition array (rows : list (list R)) : ndarray :=
  mk2 (List.length rows) (List.length (List.hd [] rows))
      (fun i j => nth j (nth i rows []) 0).

(** Two arrays are the same array when shapes and entries agree. *)
Definition array_eq (a b : ndarray) : Prop :=
  shape0 a = shape0 b /\ shape1 a = shape1 b /\
  forall i j, (i < shape0 a)%nat -> (j < shape1 a)%nat -> item a i j = item b i j.

Definition square (a : ndarray) : Prop := shape0 a = shape1 a.

(** Exact symmetry of a square array. *)
Definition symmetric (a : ndarray) : Prop :=
  square a /\
  forall i j, (i < shape0 a)%nat -> (j < shape0 a)%nat -> item a i j = item a j i.

(** ** The numpy operations the program calls *)

Module np.

Definition shapes_not_aligned : exn := ValueError "shapes not aligned".
Definition could_not_broadcast : exn :=
  ValueError "operands could not be broadcast together".
Definition non_broadcastable_output : exn :=
  ValueError "non-broadcastable output operand".

(** [a.T] *)
Definition T (a : ndarray) : ndarray :=
  mk2 (shape1 a) (shape0 a) (fun i j => item a j i).

(** [a.dot(b)] for two-dimensional arrays. *)
Definition dot (a b : ndarray) : result ndarray :=
  if (shape1 a =? shape0 b)%nat then
    Ok (mk2 (shape0 a) (shape1 b)
            (fun i j => rsum (shape1 a) (fun k => item a i k * item b k j)))
  else Raise shapes_not_aligned.

(** [u.dot(v)] for one-dimensional arrays. *)
Definition vdot (u v : ndarray1) : result R :=
  if (len u =? len v)%nat then
    Ok (rsum (len u) (fun k => at1 u k * at1 v k))
  else Raise shapes_not_aligned.

(** [np.diag(a)] of a two-dimensional array. *)
Definition diag (a : ndarray) : ndarray1 :=
  mk1 (Nat.min (shape0 a) (shape1 a)) (fun k => item a k k).

(** [v[:, None]] and [v[None, :]]. *)
Definition col (v : ndarray1) : ndarray := mk2 (len v) 1 (fun i _ => at1 v i).
Definition row (v : ndarray1) : ndarray := mk2 1 (len v) (fun _ j => at1 v j).

(** Broadcasting of two axes lengths. *)
Definition bcast_ok (p q : nat) : bool :=
  (p =? q)%nat || (p =? 1)%nat || (q =? 1)%nat.

Definition bcast_dim (p q : nat) : nat :=
  if (p =? 1)%nat then q else p.

(** Entry [(i, j)] of [a] once broadcast. *)
Definition bitem (a : ndarray) (i j : nat) : R :=
  item a (if (shape0 a =? 1)%nat then O else i)
         (if (shape1 a =? 1)%nat then O else j).

Definition bcast_shapes (a b : ndarray) : bool :=
  bcast_ok (shape0 a) (shape0 b) && bcast_ok (shape1 a) (shape1 b).

(** [a op b]: a new array of the broadcast shape. *)
Definition binop (op : R -> R -> R) (a b : ndarray) : result ndarray :=
  if bcast_shapes a b then
    Ok (mk2 (bcast_dim (shape0 a) (shape0 b)) (bcast_dim (shape1 a) (shape1 b))
            (fun i j => op (bitem a i j) (bitem b i j)))
  else Raise could_not_broadcast.

(** [a op= b]: the broadcast shape has to be the shape of [a]. *)
Definition iop (op : R -> R -> R) (a b : ndarray) : result ndarray :=
  if bcast_shapes a b then
    if ((bcast_dim (shape0 a) (shape0 b) =? shape0 a)
        && (bcast_dim (shape1 a) (shape1 b) =? shape1 a))%nat then
      Ok (mk2 (shape0 a) (shape1 a) (fun i j => op (item a i j) (bitem b i j)))
    else Raise non_broadcastable_output
  else Raise could_not_broadcast.

Definition sub : ndarray -> ndarray -> result ndarray := binop Rminus.
Definition add : ndarray -> ndarray -> result ndarray := binop Rplus.
Definition isub : ndarray -> ndarray -> result ndarray := iop Rminus.

(** Entrywise operations with a scalar. *)
Definition map (f : R -> R) (a : ndarray) : ndarray :=
  mk2 (shape0 a) (shape1 a) (fun i j => f (item a i j)).

Definition vmap (f : R -> R) (v : ndarray1) : ndarray1 :=
  mk1 (len v) (fun k => f (at1 v k)).

Definition rtol : R := / 100000.
Definition atol : R := / 100000000.

(** [np.isclose(x, y)] on two scalars, default tolerances. *)
Definition isclose (x y : R) : bool :=
  Rleb (Rabs (x - y)) (atol + rtol * Rabs y).

(** [np.allclose(a, b)] *)
Definition allclose (a b : ndarray) : result bool :=
  if bcast_shapes a b then
    Ok (all_n (bcast_dim (shape0 a) (shape0 b)) (fun i =>
        all_n (bcast_dim (shape1 a) (shape1 b)) (fun j =>
          isclose (bitem a i j) (bitem b i j))))
  else Raise could_not_broadcast.

(** [np.sum(a, 0)] and [np.mean(a, 0)] *)
Definition sum0 (a : ndarray) : ndarray1 :=
  mk1 (shape1 a) (fun j => rsum (shape0 a) (fun i => item a i j)).

Definition mean0 (a : ndarray) : ndarray1 :=
  mk1 (shape1 a) (fun j => rsum (shape0 a) (fun i => item a i j) / INR (shape0 a)).

(** [np.sum(v)] and [np.mean(v)] of a one-dimensional array. *)
Definition sum (v : ndarray1) : R := rsum (len v) (at1 v).
Definition mean (v : ndarray1) : R := rsum (len v) (at1 v) / INR (len v).

(** [np.fill_diagonal(a, val)] *)
Definition fill_diagonal (a : ndarray) (val : R) : ndarray :=
  mk2 (shape0 a) (shape1 a) (fun i j => if (i =? j)%nat then val else item a i j).

(** [a.ravel()] in row-major order. *)
Definition ravel (a : ndarray) : ndarray1 :=
  mk1 (shape0 a * shape1 a)
      (fun k => item a (k / shape1 a) (k mod shape1 a)).

(** [np.linalg.norm(a)]: the Frobenius norm. *)
Definition linalg_norm (a : ndarray) : R :=
  sqrt (rsum2 (shape0 a) (shape1 a) (fun i j => item a i j * item a i j)).

(** [np.einsum('ij,ij->i', a, b)], called with two arrays of one shape. *)
Definition einsum_ij_ij_i (a b : ndarray) : ndarray1 :=
  mk1 (shape0 a) (fun i => rsum (shape1 a) (fun j => item a i j * item b i j)).

(** The entries of a one-dimensional array, in order. *)
Definition tolist (v : ndarray1) : list R :=
  List.map (at1 v) (seq 0 (len v)).

Fixpoint insert (x : R) (l : list R) : list R :=
  match l with
  | [] => [x]
  | y :: l' => if Rleb x y then x :: y :: l' else y :: insert x l'
  end.

Fixpoint sort (l : list R) : list R :=
  match l with
  | [] => []
  | x :: l' => insert x (sort l')
  end.

(** The median of a list: the middle of the sorted entries, the mean of the
    two middle ones when their number is even. *)
Definition median_list (l : list R) : R :=
  let s := sort l in
  let k := List.length s in
  if Nat.even k then (nth (k / 2 - 1) s 0 + nth (k / 2) s 0) / 2
  else nth (k / 2) s 0.

(** [np.median(a)] over all the entries of [a]. *)
Definition median (a : ndarray) : R := median_list (tolist (ravel a)).

End np.

(** ** The program *)

(** [gram_linear(x)]: [x.dot(x.T)]. *)
Definition gram_linear (x : ndarray) : result ndarray :=
  np.dot x (np.T x).

(** [gram_rbf(x, threshold)] *)
Definition gram_rbf (x : ndarray) (threshold : R) : result ndarray :=
  dot_products <- np.dot x (np.T x) ;;
  let sq_norms := np.diag dot_products in
  s <- np.add (np.map (fun v => -2 * v) dot_products) (np.col sq_norms) ;;
  sq_distances <- np.add s (np.row sq_norms) ;;
  let sq_median_distance := np.median sq_distances in
  Ok (np.map (fun v => exp (- v / (2 * threshold ^ 2 * sq_median_distance)))
             sq_distances).

Definition not_symmetric : exn := ValueError "Input must be a symmetric matrix.".

(** [center_gram(gram, unbiased)] *)
Definition center_gram (gram : ndarray) (unbiased : bool) : result ndarray :=
  close <- np.allclose gram (np.T gram) ;;
  if negb close then Raise not_symmetric
  else
    if unbiased then
      let n := shape0 gram in
      let gram := np.fill_diagonal gram 0 in
      let means := np.vmap (fun v => v / (INR n - 2)) (np.sum0 gram) in
      let c := np.sum means / (2 * (INR n - 1)) in
      let means := np.vmap (fun v => v - c) means in
      gram <- np.isub gram (np.col means) ;;
      gram <- np.isub gram (np.row means) ;;
      Ok (np.fill_diagonal gram 0)
    else
      let means := np.mean0 gram in
      let c := np.mean means / 2 in
      let means := np.vmap (fun v => v - c) means in
      gram <- np.isub gram (np.col means) ;;
      gram <- np.isub gram (np.row means) ;;
      Ok gram.

(** [cka(gram_x, gram_y, debiased)] *)
Definition cka (gram_x gram_y : ndarray) (debiased : bool) : result R :=
  gram_x <- center_gram gram_x debiased ;;
  gram_y <- center_gram gram_y debiased ;;
  scaled_hsic <- np.vdot (np.ravel gram_x) (np.ravel gram_y) ;;
  let normalization_x := np.linalg_norm gram_x in
  let normalization_y := np.linalg_norm gram_y in
  Ok (scaled_hsic / (normalization_x * normalization_y)).

(** [n / (n - 2.)] divides a python int by a python float: python raises
    when the divisor is zero, where numpy's own divisions only warn. *)
Definition float_division_by_zero : exn :=
  ZeroDivisionError "float division by zero".

(** [_debiased_dot_product_similarity_helper(...)] *)
Definition _debiased_dot_product_similarity_helper
    (xty : R) (sum_squared_rows_x sum_squared_rows_y : ndarray1)
    (squared_norm_x squared_norm_y : R) (n : nat) : result R :=
  if (n =? 2)%nat then Raise float_division_by_zero
  else
    d <- np.vdot sum_squared_rows_x sum_squared_rows_y ;;
    Ok (xty - INR n / (INR n - 2) * d
        + squared_norm_x * squared_norm_y / ((INR n - 1) * (INR n - 2))).

(** [feature_space_linear_cka(features_x, features_y, debiased)] *)
Definition feature_space_linear_cka (features_x features_y : ndarray)
    (debiased : bool) : result R :=
  features_x <- np.sub features_x (np.row (np.mean0 features_x)) ;;
  features_y <- np.sub features_y (np.row (np.mean0 features_y)) ;;
  xty <- np.dot (np.T features_x) features_y ;;
  let dot_product_similarity := np.linalg_norm xty ^ 2 in
  xtx <- np.dot (np.T features_x) features_x ;;
  let normalization_x := np.linalg_norm xtx in
  yty <- np.dot (np.T features_y) features_y ;;
  let normalization_y := np.linalg_norm yty in
  if debiased then
    let n := shape0 features_x in
    let sum_squared_rows_x := np.einsum_ij_ij_i features_x features_x in
    let sum_squared_rows_y := np.einsum_ij_ij_i features_y features_y in
    let squared_norm_x := np.sum sum_squared_rows_x in
    let squared_norm_y := np.sum sum_squared_rows_y in
    dot_product_similarity <- _debiased_dot_product_similarity_helper
        dot_product_similarity sum_squared_rows_x sum_squared_rows_y
        squared_norm_x squared_norm_y n ;;
    hx <- _debiased_dot_product_similarity_helper
        (normalization_x ^ 2) sum_squared_rows_x sum_squared_rows_x
        squared_norm_x squared_norm_x n ;;
    let normalization_x := sqrt hx in
    hy <- _debiased_dot_product_similarity_helper
        (normalization_y ^ 2) sum_squared_rows_y sum_squared_rows_y
        squared_norm_y squared_norm_y n ;;
    let normalization_y := sqrt hy in
    Ok (dot_product_similarity / (normalization_x * normalization_y))
  else
    Ok (dot_product_similarity / (normalization_x * normalization_y)).

(** [cca(features_x, features_y)]; [np.linalg.qr] is the library's reduced QR
    factorisation, taken as a parameter [qr] that answers the pair [(q, r)]. *)
Definition cca (qr : ndarray -> ndarray * ndarray)
    (features_x features_y : ndarray) : result R :=
  let '(qx, _) := qr features_x in
  let '(qy, _) := qr features_y in
  m <- np.dot (np.T qx) qy ;;
  Ok (np.linalg_norm m ^ 2 / INR (Nat.min (shape1 features_x) (shape1 features_y))).

(** ** Closed forms of what the program computes *)

(** What [np.allclose(gram, gram.T)] tests on a square array. *)
Definition symmetric_within_tol (a : ndarray) : Prop :=
  forall i j, (i < shape0 a)%nat -> (j < shape0 a)%nat ->
    Rabs (item a i j - item a j i) <= np.atol + np.rtol * Rabs (item a j i).

(** The entries of the two centred arrays, read off an [n] by [n] table [g]:
    first the biased mode, then the unbiased one. *)
Definition biased_means (n : nat) (g : nat -> nat -> R) (j : nat) : R :=
  rsum n (fun i => g i j) / INR n.

Definition biased_shift (n : nat) (g : nat -> nat -> R) (j : nat) : R :=
  biased_means n g j - rsum n (biased_means n g) / INR n / 2.

Definition centered_biased (n : nat) (g : nat -> nat -> R) (i j : nat) : R :=
  g i j - biased_shift n g i - biased_shift n g j.

Definition zero_diag (g : nat -> nat -> R) (i j : nat) : R :=
  if (i =? j)%nat then 0 else g i j.

Definition unbiased_means (n : nat) (g : nat -> nat -> R) (j : nat) : R :=
  rsum n (fun i => zero_diag g i j) / (INR n - 2).

Definition unbiased_shift (n : nat) (g : nat -> nat -> R) (j : nat) : R :=
  unbiased_means n g j - rsum n (unbiased_means n g) / (2 * (INR n - 1)).

Definition centered_unbiased (n : nat) (g : nat -> nat -> R) (i j : nat) : R :=
  if (i =? j)%nat then 0
  else zero_diag g i j - unbiased_shift n g i - unbiased_shift n g j.

Definition centered (unbiased : bool) : nat -> (nat -> nat -> R) -> nat -> nat -> R :=
  if unbiased then centered_unbiased else centered_biased.

(** Sum of column [j] with the diagonal entry left out. *)
Definition colsum (n : nat) (t : nat -> nat -> R) (j : nat) : R :=
  rsum n (fun i => zero_diag t i j).

(** Entry [(i, j)] of [x.dot(x.T)]. *)
Definition gram_entry (x : ndarray) (i j : nat) : R :=
  rsum (shape1 x) (fun k => item x i k * item x j k).

(** Features with the mean of each column subtracted. *)
Definition column_centered (x : ndarray) : ndarray :=
  mk2 (shape0 x) (shape1 x)
      (fun i j => item x i j - rsum (shape0 x) (fun k => item x k j) / INR (shape0 x)).

(** Column means of the features, and two sums they enter. *)
Definition column_mean (x : ndarray) (k : nat) : R :=
  rsum (shape0 x) (fun l => item x l k) / INR (shape0 x).

Definition mean_dot (x : ndarray) (i : nat) : R :=
  rsum (shape1 x) (fun k => item x i k * column_mean x k).

Definition mean_sq (x : ndarray) : R :=
  rsum (shape1 x) (fun k => column_mean x k * column_mean x k).

(** Entry [(a, b)] of [x.T.dot(y)]. *)
Definition xT_y (x y : ndarray) (a b : nat) : R :=
  rsum (shape0 x) (fun i => item x i a * item y i b).

(** Squared Frobenius norm of an [n] by [m] table. *)
Definition frob2 (n m : nat) (f : nat -> nat -> R) : R :=
  rsum2 n m (fun i j => f i j * f i j).

(** [ssr[i] = sum_j x[i,j]^2] *)
Definition sum_squared_rows (x : ndarray) (i : nat) : R :=
  rsum (shape1 x) (fun j => item x i j * item x i j).

(** The debiasing formula:
    [raw - n/(n-2) (u . v) + sx sy / ((n-1)(n-2))]. *)
Definition debiased_similarity (raw : R) (k : nat) (u v : nat -> R)
    (sx sy : R) (n : nat) : R :=
  raw - INR n / (INR n - 2) * rsum k (fun i => u i * v i)
  + sx * sy / ((INR n - 1) * (INR n - 2)).

(** The value of [feature_space_linear_cka] on two feature matrices with as
    many rows. *)
Definition fslc_value (x y : ndarray) (debiased : bool) : R :=
  let xc := column_centered x in
  let yc := column_centered y in
  let n := shape0 x in
  let xty := frob2 (shape1 x) (shape1 y) (xT_y xc yc) in
  let xtx := frob2 (shape1 x) (shape1 x) (xT_y xc xc) in
  let yty := frob2 (shape1 y) (shape1 y) (xT_y yc yc) in
  if debiased then
    let u := sum_squared_rows xc in
    let v := sum_squared_rows yc in
    let sx := rsum n u in
    let sy := rsum n v in
    debiased_similarity xty n u v sx sy n
    / (sqrt (debiased_similarity xtx n u u sx sx n)
       * sqrt (debiased_similarity yty n v v sy sy n))
  else xty / (sqrt xtx * sqrt yty).

(** ** The specification's wording, for the refinement statements *)

(** Unbiased centring, step by step as the specification words it. *)
Module unbiased_spec.

(** "set the diagonal of G to 0" *)
Definition zero_diagonal (g : nat -> nat -> R) (i j : nat) : R :=
  if (i =? j)%nat then 0 else g i j.

(** "means[j] = sum_i(G[i,j]) / (N-2)" *)
Definition means (n : nat) (g : nat -> nat -> R) (j : nat) : R :=
  rsum n (fun i => g i j) / (INR n - 2).

(** "subtract sum(means) / (2(N-1)) from every entry of means" *)
Definition shift (n : nat) (m : nat -> R) (j : nat) : R :=
  m j - rsum n m / (2 * (INR n - 1)).

(** "subtract means from every row and from every column of G" *)
Definition subtract_rows (g : nat -> nat -> R) (m : nat -> R) (i j : nat) : R :=
  g i j - m j.

Definition subtract_columns (g : nat -> nat -> R) (m : nat -> R) (i j : nat) : R :=
  g i j - m i.

(** The five steps in order. *)
Definition center (n : nat) (g : nat -> nat -> R) : nat -> nat -> R :=
  let g1 := zero_diagonal g in
  let m := means n g1 in
  let m := shift n m in
  let g2 := subtract_columns (subtract_rows g1 m) m in
  zero_diagonal g2.

End unbiased_spec.

(** The RBF kernel as the specification words it. *)
Module rbf_spec.

(** "g = X X^t" *)
Definition g (x : ndarray) (i j : nat) : R :=
  rsum (shape1 x) (fun k => item x i k * item x j k).

(** "d2(i,j) = g(i,i) - 2 g(i,j) + g(j,j)" *)
Definition sq_distance (x : ndarray) (i j : nat) : R :=
  g x i i - 2 * g x i j + g x j j.

(** All the N^2 entries of an N x N table, the diagonal too, row by row. *)
Definition all_entries (n : nat) (f : nat -> nat -> R) : list R :=
  flat_map (fun i => List.map (fun j => f i j) (seq 0 n)) (seq 0 n).

(** "sigma^2 = threshold^2 x median(d2)" *)
Definition bandwidth (x : ndarray) (threshold : R) : R :=
  threshold ^ 2 * np.median_list (all_entries (shape0 x) (sq_distance x)).

(** "exp(-d2 / (2 sigma^2))" *)
Definition kernel (x : ndarray) (threshold : R) (i j : nat) : R :=
  exp (- sq_distance x i j / (2 * bandwidth x threshold)).

End rbf_spec.

(** The error of [center_gram] as the specification names it:
    [NotSymmetricError], raised exactly on inputs that fail the symmetry
    test. *)
Definition raises_NotSymmetricError_iff (gram : ndarray) (unbiased : bool) : Prop :=
  (exists e, center_gram gram unbiased = Raise e
             /\ exn_name e = "NotSymmetricError"%string)
  <-> ~ symmetric_within_tol gram.

(** Shape checking in [cka] as the specification has it: Gram matrices that
    are not square, or not of one size, make the call fail. *)
Definition cka_rejects_shapes (gram_x gram_y : ndarray) (debiased : bool) : Prop :=
  (~ square gram_x \/ ~ square gram_y \/ shape0 gram_x <> shape0 gram_y) ->
  raises (cka gram_x gram_y debiased).

(** ** A reference QR factorisation *)

(** Classical Gram-Schmidt on the columns, to exercise the statements about
    [cca] with.  On a feature matrix of full column rank this is the reduced
    QR factorisation in exact arithmetic, up to the signs numpy picks; on
    dependent columns it divides by a zero norm and is no factorisation, and
    it is used on inputs of full column rank only. *)
Fixpoint gram_schmidt_columns (x : ndarray) (k : nat) : list (nat -> R) :=
  match k with
  | O => []
  | S k' =>
      let qs := gram_schmidt_columns x k' in
      let a := fun i => item x i k' in
      let v := fun i =>
        a i - fold_right
                (fun q acc => acc + rsum (shape0 x) (fun l => q l * a l) * q i) 0 qs in
      qs ++ [fun i => v i / sqrt (rsum (shape0 x) (fun l => v l * v l))]
  end.

Definition gram_schmidt_qr (x : ndarray) : ndarray * ndarray :=
  let k := Nat.min (shape0 x) (shape1 x) in
  let qs := gram_schmidt_columns x k in
  let q := mk2 (shape0 x) k (fun i j => nth j qs (fun _ => 0) i) in
  (q, mk2 k (shape1 x)
          (fun a b => if (a <=? b)%nat
                      then rsum (shape0 x) (fun i => item q i a * item x i b)
                      else 0)).

(** ** Inputs the statements are exercised on *)

Definition identity2 : ndarray := array [[1; 0]; [0; 1]].
Definition identity3 : ndarray := array [[1; 0; 0]; [0; 1; 0]; [0; 0; 1]].
Definition band3 : ndarray := array [[2; 1; 0]; [1; 2; 1]; [0; 1; 2]].
Definition lopsided2 : ndarray := array [[0; 1]; [2; 0]].
Definition ramp4 : ndarray := array [[0]; [1]; [2]; [4]].
Definition bend4 : ndarray := array [[1; 0]; [0; 1]; [2; 2]; [0; 3]].
Definition tall3 : ndarray := array [[200000]; [200001]; [200000]].
Definition two_points : ndarray := array [[0]; [1]].
Definition line3 : ndarray := array [[0]; [1]; [2]].
Definition kink3 : ndarray := array [[0]; [1]; [5]].

(** ** Further operations and inputs *)

(** [x * c] with a python scalar [c], as in [X * 1.337]. *)
Definition mul_scalar (x : ndarray) (c : R) : ndarray :=
  np.map (fun v => v * c) x.


Definition wide2 : ndarray := array [[1; 2; 3]; [4; 5; 6]].
Definition flat3 : ndarray := array [[1; 2; 1]].
Definition pair2 : ndarray := array [[1; 2]; [3; 5]].
Definition swap2 : ndarray := array [[0; 1]; [1; 0]].
Definition sym4 : ndarray :=
  array [[1; 2; 0; 1]; [2; 3; 1; 0]; [0; 1; 2; 4]; [1; 0; 4; 5]].


Definition identity4 : ndarray :=
  array [[1; 0; 0; 0]; [0; 1; 0; 0]; [0; 0; 1; 0]; [0; 0; 0; 1]].

(** The adjacency matrix of a path on four points. *)
Definition path4 : ndarray :=
  array [[0; 1; 0; 0]; [1; 0; 1; 0]; [0; 1; 0; 1]; [0; 0; 1; 0]].

(** Symmetric within the tolerance of [np.allclose], not exactly. *)
Definition nearly3 : ndarray :=
  array [[0; 200000; 0]; [200001; 0; 0]; [0; 0; 0]].

(** An array that is not square and not a single column. *)
Definition not_square_wide (a : ndarray) : Prop :=
  shape0 a <> shape1 a /\ shape1 a <> 1%nat.

(** The errors numpy raises for shapes that do not fit. *)
Definition is_shape_error (e : exn) : Prop :=
  e = np.shapes_not_aligned \/ e = np.could_not_broadcast
  \/ e = np.non_broadcastable_output.

(** The shape error of [cka] as the specification has it: Gram matrices that
    are not square, or not of one size, make the call fail with a shape
    error. *)
Definition cka_fails_with_shape_error (gram_x gram_y : ndarray) (debiased : bool)
    : Prop :=
  (~ square gram_x \/ ~ square gram_y \/ shape0 gram_x <> shape0 gram_y) ->
  exists e, cka gram_x gram_y debiased = Raise e /\ is_shape_error e.

(** ** The program on float64 numbers *)

(** The same operations and the same program with the entries read as IEEE
    binary64 numbers, every operation rounded to nearest as numpy's are.  Sums
    are accumulated in index order, which is the order of numpy's reductions
    of fewer than eight terms and of its reductions along the first axis;
    the order a BLAS [dot] uses on longer vectors may differ from it in the
    last digits of a sum. *)

Module f64.

Record ndarray1 : Type := mk1 { len : nat; at1 : nat -> float }.

Record ndarray : Type := mk2 { shape0 : nat; shape1 : nat; item : nat -> nat -> float }.

(** [np.array([[...], ...])]. *)
Definition array (rows : list (list float)) : ndarray :=
  mk2 (List.length rows) (List.length (List.hd [] rows))
      (fun i j => nth j (nth i rows []) 0%float).

(** [f 0 + ... + f (n-1)], added from left to right. *)
Fixpoint fsum (n : nat) (f : nat -> float) : float :=
  match n with
  | O => 0%float
  | S k => (fsum k f + f k)%float
  end.

(** The float of a python int; exact below [2 ^ 53]. *)
Fixpoint of_nat (n : nat) : float :=
  match n with
  | O => 0%float
  | S k => (of_nat k + 1)%float
  end.

Definition of_Z (z : Z) : float :=
  match z with
  | Z0 => 0%float
  | Zpos p => of_nat (Pos.to_nat p)
  | Zneg p => (- of_nat (Pos.to_nat p))%float
  end.

(** [a.T] *)
Definition T (a : ndarray) : ndarray :=
  mk2 (shape1 a) (shape0 a) (fun i j => item a j i).

(** [a.dot(b)] for two-dimensional arrays. *)
Definition dot (a b : ndarray) : result ndarray :=
  if (shape1 a =? shape0 b)%nat then
    Ok (mk2 (shape0 a) (shape1 b)
            (fun i j => fsum (shape1 a) (fun k => (item a i k * item b k j)%float)))
  else Raise np.shapes_not_aligned.

(** [u.dot(v)] for one-dimensional arrays. *)
Definition vdot (u v : ndarray1) : result float :=
  if (len u =? len v)%nat then
    Ok (fsum (len u) (fun k => (at1 u k * at1 v k)%float))
  else Raise np.shapes_not_aligned.

(** [v[:, None]] and [v[None, :]]. *)
Definition col (v : ndarray1) : ndarray := mk2 (len v) 1 (fun i _ => at1 v i).
Definition row (v : ndarray1) : ndarray := mk2 1 (len v) (fun _ j => at1 v j).

(** Entry [(i, j)] of [a] once broadcast. *)
Definition bitem (a : ndarray) (i j : nat) : float :=
  item a (if (shape0 a =? 1)%nat then O else i)
         (if (shape1 a =? 1)%nat then O else j).

Definition bcast_shapes (a b : ndarray) : bool :=
  np.bcast_ok (shape0 a) (shape0 b) && np.bcast_ok (shape1 a) (shape1 b).

(** [a op b]: a new array of the broadcast shape. *)
Definition binop (op : float -> float -> float) (a b : ndarray) : result ndarray :=
  if bcast_shapes a b then
    Ok (mk2 (np.bcast_dim (shape0 a) (shape0 b)) (np.bcast_dim (shape1 a) (shape1 b))
            (fun i j => op (bitem a i j) (bitem b i j)))
  else Raise np.could_not_broadcast.

(** [a op= b]: the broadcast shape has to be the shape of [a]. *)
Definition iop (op : float -> float -> float) (a b : ndarray) : result ndarray :=
  if bcast_shapes a b then
    if ((np.bcast_dim (shape0 a) (shape0 b) =? shape0 a)
        && (np.bcast_dim (shape1 a) (shape1 b) =? shape1 a))%nat then
      Ok (mk2 (shape0 a) (shape1 a) (fun i j => op (item a i j) (bitem b i j)))
    else Raise np.non_broadcastable_output
  else Raise np.could_not_broadcast.

Definition sub : ndarray -> ndarray -> result ndarray := binop PrimFloat.sub.
Definition isub : ndarray -> ndarray -> result ndarray := iop PrimFloat.sub.

Definition vmap (f : float -> float) (v : ndarray1) : ndarray1 :=
  mk1 (len v) (fun k => f (at1 v k)).

(** The doubles nearest to [1e-5] and [1e-8]. *)
Definition rtol : float := 0x1.4f8b588e368f1p-17%float.
Definition atol : float := 0x1.5798ee2308c3ap-27%float.

(** [np.isclose(x, y)] on two scalars, default tolerances. *)
Definition isclose (x y : float) : bool :=
  (PrimFloat.abs (x - y) <=? atol + rtol * PrimFloat.abs y)%float.

(** [np.allclose(a, b)] *)
Definition allclose (a b : ndarray) : result bool :=
  if bcast_shapes a b then
    Ok (all_n (np.bcast_dim (shape0 a) (shape0 b)) (fun i =>
        all_n (np.bcast_dim (shape1 a) (shape1 b)) (fun j =>
          isclose (bitem a i j) (bitem b i j))))
  else Raise np.could_not_broadcast.

(** [np.sum(a, 0)] and [np.mean(a, 0)] *)
Definition sum0 (a : ndarray) : ndarray1 :=
  mk1 (shape1 a) (fun j => fsum (shape0 a) (fun i => item a i j)).

Definition mean0 (a : ndarray) : ndarray1 :=
  mk1 (shape1 a)
      (fun j => (fsum (shape0 a) (fun i => item a i j) / of_nat (shape0 a))%float).

(** [np.sum(v)] and [np.mean(v)] of a one-dimensional array. *)
Definition sum (v : ndarray1) : float := fsum (len v) (at1 v).
Definition mean (v : ndarray1) : float := (fsum (len v) (at1 v) / of_nat (len v))%float.

(** [np.fill_diagonal(a, val)] *)
Definition fill_diagonal (a : ndarray) (val : float) : ndarray :=
  mk2 (shape0 a) (shape1 a) (fun i j => if (i =? j)%nat then val else item a i j).

(** [a.ravel()] in row-major order. *)
Definition ravel (a : ndarray) : ndarray1 :=
  mk1 (shape0 a * shape1 a)
      (fun k => item a (k / shape1 a) (k mod shape1 a)).

(** [np.linalg.norm(a)]: the square root of the ravelled array's [dot] with
    itself. *)
Definition linalg_norm (a : ndarray) : float :=
  PrimFloat.sqrt (fsum (len (ravel a)) (fun k => (at1 (ravel a) k * at1 (ravel a) k)%float)).

(** [np.einsum('ij,ij->i', a, b)], called with two arrays of one shape. *)
Definition einsum_ij_ij_i (a b : ndarray) : ndarray1 :=
  mk1 (shape0 a) (fun i => fsum (shape1 a) (fun j => (item a i j * item b i j)%float)).

(** [gram_linear(x)] *)
Definition gram_linear (x : ndarray) : result ndarray :=
  dot x (T x).

(** [center_gram(gram, unbiased)] *)
Definition center_gram (gram : ndarray) (unbiased : bool) : result ndarray :=
  close <- allclose gram (T gram) ;;
  if negb close then Raise not_symmetric
  else
    if unbiased then
      let n := shape0 gram in
      let gram := fill_diagonal gram 0%float in
      let means := vmap (fun v => (v / of_Z (Z.of_nat n - 2))%float) (sum0 gram) in
      let c := (sum means / of_Z (2 * (Z.of_nat n - 1)))%float in
      let means := vmap (fun v => (v - c)%float) means in
      gram <- isub gram (col means) ;;
      gram <- isub gram (row means) ;;
      Ok (fill_diagonal gram 0%float)
    else
      let means := mean0 gram in
      let c := (mean means / 2)%float in
      let means := vmap (fun v => (v - c)%float) means in
      gram <- isub gram (col means) ;;
      gram <- isub gram (row means) ;;
      Ok gram.

(** [cka(gram_x, gram_y, debiased)] *)
Definition cka (gram_x gram_y : ndarray) (debiased : bool) : result float :=
  gram_x <- center_gram gram_x debiased ;;
  gram_y <- center_gram gram_y debiased ;;
  scaled_hsic <- vdot (ravel gram_x) (ravel gram_y) ;;
  let normalization_x := linalg_norm gram_x in
  let normalization_y := linalg_norm gram_y in
  Ok (scaled_hsic / (normalization_x * normalization_y))%float.

(** [_debiased_dot_product_similarity_helper(...)] *)
Definition _debiased_dot_product_similarity_helper
    (xty : float) (sum_squared_rows_x sum_squared_rows_y : ndarray1)
    (squared_norm_x squared_norm_y : float) (n : nat) : result float :=
  if (n =? 2)%nat then Raise float_division_by_zero
  else
    d <- vdot sum_squared_rows_x sum_squared_rows_y ;;
    Ok (xty - of_nat n / (of_nat n - 2) * d
        + squared_norm_x * squared_norm_y
          / of_Z ((Z.of_nat n - 1) * (Z.of_nat n - 2)))%float.

(** [feature_space_linear_cka(features_x, features_y, debiased)]; [v ** 2]
    is [v * v]. *)
Definition feature_space_linear_cka (features_x features_y : ndarray)
    (debiased : bool) : result float :=
  features_x <- sub features_x (row (mean0 features_x)) ;;
  features_y <- sub features_y (row (mean0 features_y)) ;;
  xty <- dot (T features_x) features_y ;;
  let dot_product_similarity := (linalg_norm xty * linalg_norm xty)%float in
  xtx <- dot (T features_x) features_x ;;
  let normalization_x := linalg_norm xtx in
  yty <- dot (T features_y) features_y ;;
  let normalization_y := linalg_norm yty in
  if debiased then
    let n := shape0 features_x in
    let sum_squared_rows_x := einsum_ij_ij_i features_x features_x in
    let sum_squared_rows_y := einsum_ij_ij_i features_y features_y in
    let squared_norm_x := sum sum_squared_rows_x in
    let squared_norm_y := sum sum_squared_rows_y in
    dot_product_similarity <- _debiased_dot_product_similarity_helper
        dot_product_similarity sum_squared_rows_x sum_squared_rows_y
        squared_norm_x squared_norm_y n ;;
    hx <- _debiased_dot_product_similarity_helper
        (normalization_x * normalization_x) sum_squared_rows_x sum_squared_rows_x
        squared_norm_x squared_norm_x n ;;
    let normalization_x := PrimFloat.sqrt hx in
    hy <- _debiased_dot_product_similarity_helper
        (normalization_y * normalization_y) sum_squared_rows_y sum_squared_rows_y
        squared_norm_y squared_norm_y n ;;
    let normalization_y := PrimFloat.sqrt hy in
    Ok (dot_product_similarity / (normalization_x * normalization_y))%float
  else
    Ok (dot_product_similarity / (normalization_x * normalization_y))%float.

(** The two ways to linear CKA that the equivalence law compares: the second
    is [cka(gram_linear(x), gram_linear(y), debiased)]. *)
Definition cka_of_gram_linear (x y : ndarray) (debiased : bool) : result float :=
  gram_x <- gram_linear x ;;
  gram_y <- gram_linear y ;;
  cka gram_x gram_y debiased.

(** [a] is [b] within the relative tolerance [tol]. *)
Definition within_rtol (tol a b : float) : bool :=
  (PrimFloat.abs (a - b) <=? tol * PrimFloat.abs b)%float.

(** The equivalence law at relative tolerance [tol], on float64 numbers:
    both calls return, and the difference is within [tol] times the size of
    one of the two scores. *)
Definition equivalent_within (tol : float) (x y : ndarray) (debiased : bool) : Prop :=
  exists a b,
    feature_space_linear_cka x y debiased = Ok a
    /\ cka_of_gram_linear x y debiased = Ok b
    /\ (within_rtol tol a b || within_rtol tol b a) = true.

(** One feature each, four examples; the first is the second moved by [1e8]. *)
Definition far4 : ndarray :=
  array [[100000000%float]; [100000001%float]; [100000002%float]; [100000004%float]].

Definition near4 : ndarray :=
  array [[0%float]; [1%float]; [2%float]; [4%float]].

(** The double nearest to [1e-8]. *)
Definition tol8 : float := 0x1.5798ee2308c3ap-27%float.

End f64.

(** * Lemmas and theorems *)

(** ** Finite sums *)

Section Sums.

Lemma rsum_ext (n : nat) (f g : nat -> R) :
  (forall i, (i < n)%nat -> f i = g i) -> rsum n f = rsum n g.
Proof.
  induction n as [|n IH]; intros H; simpl; [reflexivity|].
  rewrite IH by (intros i Hi; apply H; lia).
  rewrite (H n) by lia. reflexivity.
Qed.

Lemma rsum_zero (n : nat) : rsum n (fun _ => 0) = 0.
Proof. induction n as [|n IH]; simpl; [|rewrite IH]; lra. Qed.

Lemma rsum_plus (n : nat) (f g : nat -> R) :
  rsum n (fun i => f i + g i) = rsum n f + rsum n g.
Proof. induction n as [|n IH]; simpl; [|rewrite IH]; lra. Qed.

Lemma rsum_minus (n : nat) (f g : nat -> R) :
  rsum n (fun i => f i - g i) = rsum n f - rsum n g.
Proof. induction n as [|n IH]; simpl; [|rewrite IH]; lra. Qed.

Lemma rsum_scal_l (n : nat) (c : R) (f : nat -> R) :
  rsum n (fun i => c * f i) = c * rsum n f.
Proof. induction n as [|n IH]; simpl; [|rewrite IH]; lra. Qed.

Lemma rsum_scal_r (n : nat) (c : R) (f : nat -> R) :
  rsum n (fun i => f i * c) = rsum n f * c.
Proof. induction n as [|n IH]; simpl; [|rewrite IH]; lra. Qed.

Lemma rsum_div (n : nat) (c : R) (f : nat -> R) :
  rsum n (fun i => f i / c) = rsum n f / c.
Proof. unfold Rdiv. apply rsum_scal_r. Qed.

Lemma rsum_const (n : nat) (c : R) : rsum n (fun _ => c) = INR n * c.
Proof.
  induction n as [|n IH]; [simpl; lra|].
  rewrite S_INR. simpl rsum. rewrite IH. lra.
Qed.

Lemma rsum_swap (n m : nat) (f : nat -> nat -> R) :
  rsum n (fun i => rsum m (fun j => f i j))
  = rsum m (fun j => rsum n (fun i => f i j)).
Proof.
  induction n as [|n IH]; simpl.
  - now rewrite rsum_zero.
  - rewrite IH, <- rsum_plus. reflexivity.
Qed.

Lemma rsum_mul (n m : nat) (f g : nat -> R) :
  rsum n f * rsum m g = rsum n (fun i => rsum m (fun j => f i * g j)).
Proof.
  rewrite <- rsum_scal_r. apply rsum_ext; intros i _.
  now rewrite rsum_scal_l.
Qed.

Lemma rsum_nonneg (n : nat) (f : nat -> R) :
  (forall i, (i < n)%nat -> 0 <= f i) -> 0 <= rsum n f.
Proof.
  induction n as [|n IH]; intros H; simpl; [lra|].
  assert (0 <= rsum n f) by (apply IH; intros; apply H; lia).
  assert (0 <= f n) by (apply H; lia). lra.
Qed.

(** The one term a Kronecker delta keeps. *)
Lemma rsum_delta (n j : nat) (f : nat -> R) :
  (j < n)%nat -> rsum n (fun i => if (i =? j)%nat then f i else 0) = f j.
Proof.
  induction n as [|n IH]; intros Hj; [lia|]. simpl.
  destruct (Nat.eqb_spec n j) as [->|Hne].
  - rewrite (rsum_ext j _ (fun _ => 0)).
    + rewrite rsum_zero. lra.
    + intros i Hi. destruct (Nat.eqb_spec i j); [lia|reflexivity].
  - rewrite IH by lia. lra.
Qed.

(** A sum that skips index [j]. *)
Lemma rsum_skip (n j : nat) (f : nat -> R) :
  (j < n)%nat ->
  rsum n (fun i => if (i =? j)%nat then 0 else f i) = rsum n f - f j.
Proof.
  intros Hj.
  pose proof (rsum_delta n j f Hj) as Hd.
  assert (E : rsum n f
              = rsum n (fun i => if (i =? j)%nat then 0 else f i)
                + rsum n (fun i => if (i =? j)%nat then f i else 0)).
  { rewrite <- rsum_plus. apply rsum_ext; intros i _.
    destruct (i =? j)%nat; lra. }
  lra.
Qed.

Lemma rsum_skip' (n j : nat) (f : nat -> R) :
  (j < n)%nat ->
  rsum n (fun i => if (j =? i)%nat then 0 else f i) = rsum n f - f j.
Proof.
  intros Hj. rewrite <- rsum_skip by exact Hj.
  apply rsum_ext; intros i _. now rewrite Nat.eqb_sym.
Qed.

Lemma rsum_app (n p : nat) (f : nat -> R) :
  rsum (n + p) f = rsum n f + rsum p (fun k => f (n + k)%nat).
Proof.
  induction p as [|p IH].
  - rewrite Nat.add_0_r. simpl. lra.
  - rewrite Nat.add_succ_r. simpl. rewrite IH. lra.
Qed.

(** Row-major flattening of a double sum. *)
Lemma rsum_ravel (n m : nat) (f : nat -> nat -> R) :
  rsum (n * m) (fun k => f (k / m)%nat (k mod m)%nat) = rsum2 n m f.
Proof.
  unfold rsum2.
  induction n as [|n IH]; [reflexivity|].
  replace (S n * m)%nat with (n * m + m)%nat by lia.
  rewrite rsum_app, IH. simpl. f_equal.
  apply rsum_ext; intros k Hk.
  assert (Hm : m <> O) by lia.
  replace ((n * m + k) / m)%nat with n.
  - replace ((n * m + k) mod m)%nat with k; [reflexivity|].
    rewrite Nat.add_comm, Nat.Div0.mod_add. symmetry. now apply Nat.mod_small.
  - rewrite Nat.add_comm, Nat.div_add by exact Hm.
    rewrite Nat.div_small by exact Hk. reflexivity.
Qed.

End Sums.

(** ** Facts about the numpy operations *)

Lemma all_n_spec (n : nat) (p : nat -> bool) :
  all_n n p = true <-> forall i, (i < n)%nat -> p i = true.
Proof.
  induction n as [|n IH]; simpl.
  - split; [intros _ i Hi; lia|reflexivity].
  - rewrite andb_true_iff, IH. split.
    + intros [H1 H2] i Hi.
      destruct (Nat.eq_dec i n) as [->|Hne]; [exact H2|apply H1; lia].
    + intros H. split; [intros i Hi; apply H; lia|apply H; lia].
Qed.

Lemma Rleb_spec (x y : R) : Rleb x y = true <-> x <= y.
Proof.
  unfold Rleb. destruct (Rle_dec x y); split; intros; try easy.
Qed.

Lemma bcast_ok_refl (p : nat) : np.bcast_ok p p = true.
Proof. unfold np.bcast_ok. now rewrite Nat.eqb_refl. Qed.

Lemma bcast_ok_1_r (p : nat) : np.bcast_ok p 1 = true.
Proof. unfold np.bcast_ok. simpl. now rewrite orb_true_r. Qed.

Lemma bcast_ok_1_l (p : nat) : np.bcast_ok 1 p = true.
Proof. unfold np.bcast_ok. simpl. now rewrite orb_true_r. Qed.

Lemma bcast_dim_refl (p : nat) : np.bcast_dim p p = p.
Proof. unfold np.bcast_dim. now destruct (p =? 1)%nat. Qed.

Lemma bcast_dim_1_r (p : nat) : np.bcast_dim p 1 = p.
Proof. unfold np.bcast_dim. now destruct (Nat.eqb_spec p 1). Qed.

Lemma bcast_dim_1_l (p : nat) : np.bcast_dim 1 p = p.
Proof. reflexivity. Qed.

(** Inside its own shape an array is read as it is. *)
Lemma bitem_in (a : ndarray) (i j : nat) :
  (i < shape0 a)%nat -> (j < shape1 a)%nat -> np.bitem a i j = item a i j.
Proof.
  intros Hi Hj. unfold np.bitem.
  destruct (Nat.eqb_spec (shape0 a) 1) as [E0|_];
    destruct (Nat.eqb_spec (shape1 a) 1) as [E1|_];
    repeat match goal with
           | |- context [item a ?u ?v] =>
               first [ progress replace i with O by lia
                     | progress replace j with O by lia ]
           end; reflexivity.
Qed.

Lemma bitem_col (v : ndarray1) (i j : nat) :
  (i < len v)%nat -> np.bitem (np.col v) i j = at1 v i.
Proof.
  intros Hi. unfold np.bitem, np.col; simpl.
  destruct (Nat.eqb_spec (len v) 1) as [E|_]; [|reflexivity].
  now replace i with O by lia.
Qed.

Lemma bitem_row (v : ndarray1) (i j : nat) :
  (j < len v)%nat -> np.bitem (np.row v) i j = at1 v j.
Proof.
  intros Hj. unfold np.bitem, np.row; simpl.
  destruct (Nat.eqb_spec (len v) 1) as [E|_]; [|reflexivity].
  now replace j with O by lia.
Qed.

Lemma iop_col (op : R -> R -> R) (a : ndarray) (v : ndarray1) :
  len v = shape0 a ->
  np.iop op a (np.col v)
  = Ok (mk2 (shape0 a) (shape1 a)
            (fun i j => op (item a i j) (np.bitem (np.col v) i j))).
Proof.
  intros E. unfold np.iop, np.bcast_shapes. simpl. rewrite E.
  rewrite bcast_ok_refl, bcast_ok_1_r, bcast_dim_refl, bcast_dim_1_r.
  simpl. now rewrite !Nat.eqb_refl.
Qed.

Lemma iop_row (op : R -> R -> R) (a : ndarray) (v : ndarray1) :
  len v = shape1 a ->
  np.iop op a (np.row v)
  = Ok (mk2 (shape0 a) (shape1 a)
            (fun i j => op (item a i j) (np.bitem (np.row v) i j))).
Proof.
  intros E. unfold np.iop, np.bcast_shapes. simpl. rewrite E.
  rewrite bcast_ok_refl, bcast_ok_1_r, bcast_dim_refl, bcast_dim_1_r.
  simpl. now rewrite !Nat.eqb_refl.
Qed.

Lemma binop_row (op : R -> R -> R) (a : ndarray) (v : ndarray1) :
  len v = shape1 a ->
  np.binop op a (np.row v)
  = Ok (mk2 (shape0 a) (shape1 a)
            (fun i j => op (np.bitem a i j) (np.bitem (np.row v) i j))).
Proof.
  intros E. unfold np.binop, np.bcast_shapes. simpl. rewrite E.
  now rewrite bcast_ok_refl, bcast_ok_1_r, bcast_dim_refl, bcast_dim_1_r.
Qed.

Lemma binop_col (op : R -> R -> R) (a : ndarray) (v : ndarray1) :
  len v = shape0 a ->
  np.binop op a (np.col v)
  = Ok (mk2 (shape0 a) (shape1 a)
            (fun i j => op (np.bitem a i j) (np.bitem (np.col v) i j))).
Proof.
  intros E. unfold np.binop, np.bcast_shapes. simpl. rewrite E.
  now rewrite bcast_ok_refl, bcast_ok_1_r, bcast_dim_refl, bcast_dim_1_r.
Qed.

(** ** Symmetry within the tolerance of [np.allclose] *)

Lemma bitem_T (a : ndarray) (i j : nat) :
  (i < shape1 a)%nat -> (j < shape0 a)%nat -> np.bitem (np.T a) i j = item a j i.
Proof. intros Hi Hj. now rewrite bitem_in. Qed.

Lemma allclose_square (a : ndarray) :
  square a ->
  exists b, np.allclose a (np.T a) = Ok b /\ (b = true <-> symmetric_within_tol a).
Proof.
  intros Hsq. unfold square in Hsq. unfold np.allclose, np.bcast_shapes.
  change (shape0 (np.T a)) with (shape1 a).
  change (shape1 (np.T a)) with (shape0 a).
  rewrite <- Hsq, bcast_ok_refl, bcast_dim_refl.
  eexists; split; [reflexivity|].
  rewrite all_n_spec. unfold symmetric_within_tol. split.
  - intros H i j Hi Hj. specialize (H i Hi). rewrite all_n_spec in H.
    specialize (H j Hj). unfold np.isclose in H. rewrite Rleb_spec in H.
    rewrite bitem_in, bitem_T in H by lia. exact H.
  - intros H i Hi. rewrite all_n_spec. intros j Hj.
    unfold np.isclose. rewrite Rleb_spec.
    rewrite bitem_in, bitem_T by lia. now apply H.
Qed.

Lemma symmetric_close (a : ndarray) : symmetric a -> symmetric_within_tol a.
Proof.
  intros [_ H] i j Hi Hj. rewrite (H i j Hi Hj).
  replace (item a j i - item a j i) with 0 by lra. rewrite Rabs_R0.
  unfold np.atol, np.rtol. pose proof (Rabs_pos (item a j i)). nra.
Qed.

(** ** What [center_gram] computes on a square array *)

Lemma center_gram_not_close (a : ndarray) (unbiased : bool) :
  square a -> ~ symmetric_within_tol a ->
  center_gram a unbiased = Raise not_symmetric.
Proof.
  intros Hsq Hns. destruct (allclose_square a Hsq) as [b [Hb Hiff]].
  unfold center_gram. rewrite Hb. simpl.
  destruct b; [exfalso; apply Hns, Hiff; reflexivity|reflexivity].
Qed.

Lemma center_gram_close (a : ndarray) (unbiased : bool) :
  square a -> symmetric_within_tol a ->
  exists c, center_gram a unbiased = Ok c /\
    shape0 c = shape0 a /\ shape1 c = shape0 a /\
    forall i j, (i < shape0 a)%nat -> (j < shape0 a)%nat ->
      item c i j = centered unbiased (shape0 a) (item a) i j.
Proof.
  intros Hsq Hs. destruct (allclose_square a Hsq) as [b [Hb Hiff]].
  assert (b = true) as -> by now apply Hiff.
  unfold square in Hsq.
  unfold center_gram, np.isub. rewrite Hb. cbn [bind negb].
  destruct unbiased.
  - rewrite iop_col by (cbn; lia). cbn [bind].
    rewrite iop_row by (cbn; lia). cbn [bind].
    eexists; split; [reflexivity|].
    split; [reflexivity|split; [cbn; lia|]].
    intros i j Hi Hj.
    unfold centered, centered_unbiased. unfold np.fill_diagonal at 1.
    cbn [item].
    destruct (i =? j)%nat eqn:Eij; [reflexivity|].
    rewrite bitem_col, bitem_row by (cbn; lia).
    cbn [np.fill_diagonal np.vmap np.sum0 np.sum item at1 len shape0 shape1].
    rewrite Eij.
    unfold unbiased_shift, unbiased_means, zero_diag.
    unfold np.sum, np.vmap, np.sum0, np.fill_diagonal.
    cbn [item at1 len shape0 shape1].
    rewrite <- Hsq, Eij. reflexivity.
  - rewrite iop_col by (cbn; lia). cbn [bind].
    rewrite iop_row by (cbn; lia). cbn [bind].
    eexists; split; [reflexivity|].
    split; [reflexivity|split; [cbn; lia|]].
    intros i j Hi Hj. cbn [item].
    rewrite bitem_col, bitem_row by (cbn; lia).
    unfold centered, centered_biased, biased_shift, biased_means.
    unfold np.mean, np.vmap, np.mean0.
    cbn [item at1 len shape0 shape1].
    rewrite <- Hsq. reflexivity.
Qed.

Lemma center_gram_ok_inv (g c : ndarray) (unbiased : bool) :
  square g -> center_gram g unbiased = Ok c ->
  symmetric_within_tol g /\ shape0 c = shape0 g /\ shape1 c = shape0 g.
Proof.
  intros Hsq Hc.
  destruct (allclose_square g Hsq) as [b [Hb Hiff]]. destruct b.
  - assert (Hs : symmetric_within_tol g) by now apply Hiff.
    destruct (center_gram_close g unbiased Hsq Hs) as [c' [Hc' [H0 [H1 _]]]].
    rewrite Hc in Hc'. injection Hc' as <-. now repeat split.
  - assert (Hs : ~ symmetric_within_tol g)
      by (intros Hs; apply Hiff in Hs; discriminate Hs).
    rewrite (center_gram_not_close g unbiased Hsq Hs) in Hc. discriminate Hc.
Qed.

(** ** The inputs *)

Lemma symmetric_identity2 : symmetric identity2.
Proof.
  split; [reflexivity|]. cbn [identity2 array shape0 item List.length].
  intros i j Hi Hj.
  assert (Hc : (i = 0 \/ i = 1)%nat) by lia.
  assert (Hd : (j = 0 \/ j = 1)%nat) by lia.
  destruct Hc as [-> | ->], Hd as [-> | ->]; reflexivity.
Qed.

Lemma symmetric_identity3 : symmetric identity3.
Proof.
  split; [reflexivity|]. cbn [identity3 array shape0 item List.length].
  intros i j Hi Hj.
  assert (Hc : (i = 0 \/ i = 1 \/ i = 2)%nat) by lia.
  assert (Hd : (j = 0 \/ j = 1 \/ j = 2)%nat) by lia.
  destruct Hc as [-> | [-> | ->]], Hd as [-> | [-> | ->]]; reflexivity.
Qed.

Lemma symmetric_band3 : symmetric band3.
Proof.
  split; [reflexivity|]. cbn [band3 array shape0 item List.length].
  intros i j Hi Hj.
  assert (Hc : (i = 0 \/ i = 1 \/ i = 2)%nat) by lia.
  assert (Hd : (j = 0 \/ j = 1 \/ j = 2)%nat) by lia.
  destruct Hc as [-> | [-> | ->]], Hd as [-> | [-> | ->]]; reflexivity.
Qed.

Lemma symmetric_sym4 : symmetric sym4.
Proof.
  split; [reflexivity|]. cbn [sym4 array shape0 item List.length].
  intros i j Hi Hj.
  assert (Hc : (i = 0 \/ i = 1 \/ i = 2 \/ i = 3)%nat) by lia.
  assert (Hd : (j = 0 \/ j = 1 \/ j = 2 \/ j = 3)%nat) by lia.
  destruct Hc as [-> | [-> | [-> | ->]]], Hd as [-> | [-> | [-> | ->]]];
    reflexivity.
Qed.

Lemma symmetric_identity4 : symmetric identity4.
Proof.
  split; [reflexivity|]. cbn [identity4 array shape0 item List.length].
  intros i j Hi Hj.
  assert (Hc : (i = 0 \/ i = 1 \/ i = 2 \/ i = 3)%nat) by lia.
  assert (Hd : (j = 0 \/ j = 1 \/ j = 2 \/ j = 3)%nat) by lia.
  destruct Hc as [-> | [-> | [-> | ->]]], Hd as [-> | [-> | [-> | ->]]];
    reflexivity.
Qed.

Lemma symmetric_path4 : symmetric path4.
Proof.
  split; [reflexivity|]. cbn [path4 array shape0 item List.length].
  intros i j Hi Hj.
  assert (Hc : (i = 0 \/ i = 1 \/ i = 2 \/ i = 3)%nat) by lia.
  assert (Hd : (j = 0 \/ j = 1 \/ j = 2 \/ j = 3)%nat) by lia.
  destruct Hc as [-> | [-> | [-> | ->]]], Hd as [-> | [-> | [-> | ->]]];
    reflexivity.
Qed.

Ltac solve_rabs :=
  unfold np.atol, np.rtol, Rabs; repeat destruct Rcase_abs; lra.

Lemma nearly3_close : symmetric_within_tol nearly3.
Proof.
  intros i j Hi Hj. cbn [nearly3 array shape0 List.length] in Hi, Hj.
  assert (Hc : (i = 0 \/ i = 1 \/ i = 2)%nat) by lia.
  assert (Hd : (j = 0 \/ j = 1 \/ j = 2)%nat) by lia.
  destruct Hc as [-> | [-> | ->]], Hd as [-> | [-> | ->]];
    cbn [nearly3 array item nth]; solve_rabs.
Qed.

Lemma nearly3_not_symmetric : ~ symmetric nearly3.
Proof.
  intros [_ H]. specialize (H 0%nat 1%nat).
  cbn [nearly3 array shape0 item List.length nth] in H.
  assert (H' := H ltac:(lia) ltac:(lia)). lra.
Qed.

Lemma lopsided2_not_close : ~ symmetric_within_tol lopsided2.
Proof.
  intros H. specialize (H 0%nat 1%nat).
  cbn [lopsided2 array shape0 item List.length nth] in H.
  assert (H' := H ltac:(lia) ltac:(lia)). clear H.
  unfold np.atol, np.rtol in H'.
  replace (1 - 2) with (- (1)) in H' by lra.
  rewrite Rabs_Ropp, Rabs_R1 in H'.
  rewrite (Rabs_pos_eq 2) in H' by lra. lra.
Qed.

(** ** Centring *)

(** C2: for a symmetric N x N array with N >= 3, unbiased [center_gram]
    answers the array obtained by these steps: zero the diagonal, take
    [means[j] = sum_i G[i,j] / (N-2)], subtract [sum(means) / (2(N-1))] from
    every entry of [means], subtract [means] from every row and every column,
    zero the diagonal again. *)
Theorem center_gram_unbiased_steps (gram : ndarray) :
  symmetric gram -> (3 <= shape0 gram)%nat ->
  exists c, center_gram gram true = Ok c /\
    array_eq c (mk2 (shape0 gram) (shape1 gram)
                    (unbiased_spec.center (shape0 gram) (item gram))).
Proof.
  intros Hsym Hn.
  destruct (center_gram_close gram true (proj1 Hsym) (symmetric_close _ Hsym))
    as [c [Hc [H0 [H1 Hitem]]]].
  exists c. split; [exact Hc|].
  destruct Hsym as [Hsq _]. unfold square in Hsq.
  unfold array_eq. cbn [shape0 shape1 item].
  split; [exact H0|split; [lia|]].
  intros i j Hi Hj. rewrite Hitem by lia.
  unfold centered, centered_unbiased, unbiased_spec.center,
    unbiased_spec.zero_diagonal, unbiased_spec.subtract_columns,
    unbiased_spec.subtract_rows, unbiased_spec.shift, unbiased_spec.means,
    unbiased_shift, unbiased_means, zero_diag.
  destruct (i =? j)%nat; [reflexivity|]. ring.
Qed.

Lemma center_gram_unbiased_steps_witness :
  exists c, center_gram identity3 true = Ok c /\
    array_eq c (mk2 3 3 (unbiased_spec.center 3 (item identity3))).
Proof.
  apply (center_gram_unbiased_steps identity3).
  - exact symmetric_identity3.
  - cbn. lia.
Defined.

(** C9: [center_gram] answers a symmetric array on a symmetric one, in both
    modes. *)
Theorem center_gram_symmetric (gram : ndarray) (unbiased : bool) :
  symmetric gram -> (unbiased = true -> (3 <= shape0 gram)%nat) ->
  exists c, center_gram gram unbiased = Ok c /\ symmetric c.
Proof.
  intros Hsym _.
  destruct (center_gram_close gram unbiased (proj1 Hsym) (symmetric_close _ Hsym))
    as [c [Hc [H0 [H1 Hitem]]]].
  exists c. split; [exact Hc|].
  destruct Hsym as [Hsq Hij].
  split; [unfold square; lia|].
  intros i j Hi Hj. rewrite H0 in Hi, Hj.
  rewrite !Hitem by assumption.
  destruct unbiased; unfold centered, centered_unbiased, centered_biased, zero_diag;
    rewrite (Hij i j Hi Hj).
  - rewrite (Nat.eqb_sym j i). destruct (i =? j)%nat; [reflexivity|ring].
  - ring.
Qed.

Lemma center_gram_symmetric_witness :
  exists c, center_gram identity3 true = Ok c /\ symmetric c.
Proof.
  apply (center_gram_symmetric identity3 true).
  - exact symmetric_identity3.
  - intros _. cbn. lia.
Defined.

(** C3, as stated, fails: the exception of the code is a [ValueError]. *)
Lemma center_gram_error_name_counterexample :
  center_gram lopsided2 false = Raise (ValueError "Input must be a symmetric matrix.")
  /\ ~ raises_NotSymmetricError_iff lopsided2 false.
Proof.
  split.
  - apply center_gram_not_close; [reflexivity|exact lopsided2_not_close].
  - intros [_ H]. destruct (H lopsided2_not_close) as [e [_ He]].
    destruct e; discriminate He.
Qed.

(** C3, amended: on a square array [center_gram] raises
    [ValueError('Input must be a symmetric matrix.')] exactly when
    [np.allclose(gram, gram.T)] fails and answers an array otherwise; with
    N >= 3 in the unbiased mode, where [N - 2] is not zero, that array keeps
    the asymmetry of the input entry by entry: nothing is symmetrised. *)
Theorem center_gram_value_error (gram : ndarray) (unbiased : bool) :
  square gram ->
  (center_gram gram unbiased = Raise not_symmetric <-> ~ symmetric_within_tol gram)
  /\ ((exists c, center_gram gram unbiased = Ok c) <-> symmetric_within_tol gram)
  /\ ((unbiased = true -> (3 <= shape0 gram)%nat) ->
      forall c, center_gram gram unbiased = Ok c ->
      forall i j, (i < shape0 gram)%nat -> (j < shape0 gram)%nat ->
        item c i j - item c j i = item gram i j - item gram j i).
Proof.
  intros Hsq.
  destruct (allclose_square gram Hsq) as [b [Hb Hiff]].
  destruct b.
  - assert (Hs : symmetric_within_tol gram) by now apply Hiff.
    destruct (center_gram_close gram unbiased Hsq Hs) as [c [Hc [H0 [H1 Hitem]]]].
    split; [|split].
    + split; [rewrite Hc; discriminate|intros Hn; contradiction].
    + split; [intros _; exact Hs|intros _; now exists c].
    + intros _ c' Hc' i j Hi Hj. rewrite Hc in Hc'. injection Hc' as <-.
      rewrite !Hitem by assumption.
      destruct unbiased;
        unfold centered, centered_unbiased, centered_biased, zero_diag.
      * rewrite (Nat.eqb_sym j i). destruct (Nat.eqb_spec i j) as [->|_]; ring.
      * ring.
  - assert (Hs : ~ symmetric_within_tol gram).
    { intros Hs. apply Hiff in Hs. discriminate Hs. }
    pose proof (center_gram_not_close gram unbiased Hsq Hs) as Hr.
    split; [|split].
    + split; [intros _; exact Hs|intros _; exact Hr].
    + split; [intros [c Hc]; rewrite Hr in Hc; discriminate|intros H; contradiction].
    + intros _ c Hc. rewrite Hr in Hc. discriminate Hc.
Qed.

Lemma center_gram_value_error_witness :
  (center_gram lopsided2 false = Raise not_symmetric
   <-> ~ symmetric_within_tol lopsided2)
  /\ ~ symmetric nearly3
  /\ exists c, center_gram nearly3 true = Ok c
       /\ item c 0 1 - item c 1 0 = item nearly3 0 1 - item nearly3 1 0.
Proof.
  split; [|split].
  - apply (center_gram_value_error lopsided2 false). reflexivity.
  - exact nearly3_not_symmetric.
  - destruct (center_gram_value_error nearly3 true eq_refl) as [_ [H2 H3]].
    destruct (proj2 H2 nearly3_close) as [c Hc].
    exists c. split; [exact Hc|].
    apply H3; [intros _; cbn; lia|exact Hc|cbn; lia|cbn; lia].
Defined.

(** ** Feature-space linear CKA in closed form *)

Lemma rsum2_ext (n m : nat) (f g : nat -> nat -> R) :
  (forall i j, (i < n)%nat -> (j < m)%nat -> f i j = g i j) ->
  rsum2 n m f = rsum2 n m g.
Proof.
  intros H. unfold rsum2. apply rsum_ext; intros i Hi.
  apply rsum_ext; intros j Hj. now apply H.
Qed.

Lemma rsum2_nonneg (n m : nat) (f : nat -> nat -> R) :
  (forall i j, (i < n)%nat -> (j < m)%nat -> 0 <= f i j) -> 0 <= rsum2 n m f.
Proof.
  intros H. unfold rsum2. apply rsum_nonneg; intros i Hi.
  apply rsum_nonneg; intros j Hj. now apply H.
Qed.

Lemma frob2_nonneg (n m : nat) (f : nat -> nat -> R) : 0 <= frob2 n m f.
Proof. apply rsum2_nonneg; intros; nra. Qed.

Lemma frob2_ext (n m : nat) (f g : nat -> nat -> R) :
  (forall i j, (i < n)%nat -> (j < m)%nat -> f i j = g i j) ->
  frob2 n m f = frob2 n m g.
Proof. intros H. apply rsum2_ext; intros i j Hi Hj. now rewrite H. Qed.

Lemma sqrt_pow2 (s : R) : 0 <= s -> sqrt s ^ 2 = s.
Proof. intros H. simpl. rewrite Rmult_1_r. now apply sqrt_sqrt. Qed.

Lemma xT_y_ext (x y x' y' : ndarray) (a b : nat) :
  shape0 x = shape0 x' ->
  (forall i, (i < shape0 x)%nat -> item x i a = item x' i a) ->
  (forall i, (i < shape0 x)%nat -> item y i b = item y' i b) ->
  xT_y x y a b = xT_y x' y' a b.
Proof.
  intros E Hx Hy. unfold xT_y. rewrite <- E.
  apply rsum_ext; intros i Hi. now rewrite Hx, Hy.
Qed.

(** The first statement of [feature_space_linear_cka]. *)
Lemma sub_mean (x : ndarray) :
  exists xc, np.sub x (np.row (np.mean0 x)) = Ok xc /\
    shape0 xc = shape0 x /\ shape1 xc = shape1 x /\
    forall i j, (i < shape0 x)%nat -> (j < shape1 x)%nat ->
      item xc i j = item (column_centered x) i j.
Proof.
  unfold np.sub. rewrite binop_row by reflexivity.
  eexists; split; [reflexivity|].
  split; [reflexivity|split; [reflexivity|]].
  intros i j Hi Hj. cbn [item column_centered].
  rewrite bitem_in, bitem_row by (cbn; assumption). reflexivity.
Qed.

Lemma dot_T (x y : ndarray) :
  shape0 x = shape0 y ->
  np.dot (np.T x) y = Ok (mk2 (shape1 x) (shape1 y) (xT_y x y)).
Proof.
  intros E. unfold np.dot. cbn [np.T shape0 shape1 item].
  rewrite E, Nat.eqb_refl. rewrite <- E. reflexivity.
Qed.

Lemma dot_T_mismatch (x y : ndarray) :
  shape0 x <> shape0 y -> np.dot (np.T x) y = Raise np.shapes_not_aligned.
Proof.
  intros E. unfold np.dot. cbn [np.T shape0 shape1 item].
  destruct (Nat.eqb_spec (shape0 x) (shape0 y)); [contradiction|reflexivity].
Qed.

Lemma linalg_norm_mk2 (n m : nat) (f : nat -> nat -> R) :
  np.linalg_norm (mk2 n m f) = sqrt (frob2 n m f).
Proof. reflexivity. Qed.

Lemma frob2_xT_y_eq (x y x' y' : ndarray) :
  array_eq x x' -> array_eq y y' -> shape0 x = shape0 y ->
  frob2 (shape1 x) (shape1 y) (xT_y x y)
  = frob2 (shape1 x') (shape1 y') (xT_y x' y').
Proof.
  intros [Ex0 [Ex1 Hx]] [Ey0 [Ey1 Hy]] E. rewrite <- Ex1, <- Ey1.
  apply frob2_ext; intros a b Ha Hb.
  apply xT_y_ext; [exact Ex0| |].
  - intros i Hi. now apply Hx.
  - intros i Hi. apply Hy; [lia|exact Hb].
Qed.

Lemma sum_squared_rows_eq (x x' : ndarray) (i : nat) :
  array_eq x x' -> (i < shape0 x)%nat ->
  sum_squared_rows x i = sum_squared_rows x' i.
Proof.
  intros [E0 [E1 H]] Hi. unfold sum_squared_rows. rewrite <- E1.
  apply rsum_ext; intros j Hj. now rewrite H.
Qed.

Lemma debiased_similarity_ext (raw raw' : R) (k : nat) (u v u' v' : nat -> R)
    (sx sy sx' sy' : R) (n : nat) :
  raw = raw' -> sx = sx' -> sy = sy' ->
  (forall i, (i < k)%nat -> u i = u' i) ->
  (forall i, (i < k)%nat -> v i = v' i) ->
  debiased_similarity raw k u v sx sy n = debiased_similarity raw' k u' v' sx' sy' n.
Proof.
  intros -> -> -> Hu Hv. unfold debiased_similarity.
  rewrite (rsum_ext k (fun i => u i * v i) (fun i => u' i * v' i)); [reflexivity|].
  intros i Hi. now rewrite Hu, Hv.
Qed.

Lemma helper_eval (raw : R) (k : nat) (u v : nat -> R) (sx sy : R) (n : nat) :
  n <> 2%nat ->
  _debiased_dot_product_similarity_helper raw (mk1 k u) (mk1 k v) sx sy n
  = Ok (debiased_similarity raw k u v sx sy n).
Proof.
  intros Hn. unfold _debiased_dot_product_similarity_helper, np.vdot. cbn [len at1].
  destruct (Nat.eqb_spec n 2) as [E|_]; [contradiction|].
  rewrite Nat.eqb_refl. reflexivity.
Qed.

(** With as many rows on both sides the function answers [fslc_value]. *)
Lemma fslc_eval (x y : ndarray) (debiased : bool) :
  shape0 x = shape0 y -> (debiased = true -> shape0 x <> 2%nat) ->
  feature_space_linear_cka x y debiased = Ok (fslc_value x y debiased).
Proof.
  intros E Hn2.
  destruct (sub_mean x) as [xc [Hxc [Hx0 [Hx1 Hx]]]].
  destruct (sub_mean y) as [yc [Hyc [Hy0 [Hy1 Hy]]]].
  assert (Ax : array_eq xc (column_centered x)) by (repeat split; try assumption;
    intros i j Hi Hj; apply Hx; lia).
  assert (Ay : array_eq yc (column_centered y)) by (repeat split; try assumption;
    intros i j Hi Hj; apply Hy; lia).
  assert (Ec : shape0 xc = shape0 yc) by lia.
  unfold feature_space_linear_cka. rewrite Hxc, Hyc. cbn [bind].
  rewrite (dot_T xc yc Ec), (dot_T xc xc eq_refl), (dot_T yc yc eq_refl).
  cbn [bind]. rewrite !linalg_norm_mk2.
  rewrite !sqrt_pow2 by apply frob2_nonneg.
  rewrite (frob2_xT_y_eq xc yc _ _ Ax Ay Ec).
  rewrite (frob2_xT_y_eq xc xc _ _ Ax Ax eq_refl).
  rewrite (frob2_xT_y_eq yc yc _ _ Ay Ay eq_refl).
  cbn [column_centered shape0 shape1].
  destruct debiased; [|reflexivity].
  unfold np.einsum_ij_ij_i, np.sum. cbn [len at1].
  rewrite <- Ec. rewrite !helper_eval by (rewrite Hx0; now apply Hn2). cbn [bind].
  unfold fslc_value. cbn [column_centered shape0 shape1]. rewrite Hx0.
  assert (Hu : forall i, (i < shape0 x)%nat ->
    rsum (shape1 xc) (fun j => item xc i j * item xc i j)
    = sum_squared_rows (column_centered x) i).
  { intros i Hi. apply (sum_squared_rows_eq xc _ i Ax). lia. }
  assert (Hv : forall i, (i < shape0 x)%nat ->
    rsum (shape1 yc) (fun j => item yc i j * item yc i j)
    = sum_squared_rows (column_centered y) i).
  { intros i Hi. apply (sum_squared_rows_eq yc _ i Ay). lia. }
  assert (Sx : rsum (shape0 x)
      (fun i => rsum (shape1 xc) (fun j => item xc i j * item xc i j))
    = rsum (shape0 x) (sum_squared_rows (column_centered x)))
    by (apply rsum_ext; exact Hu).
  assert (Sy : rsum (shape0 x)
      (fun i => rsum (shape1 yc) (fun j => item yc i j * item yc i j))
    = rsum (shape0 x) (sum_squared_rows (column_centered y)))
    by (apply rsum_ext; exact Hv).
  f_equal. f_equal; [|f_equal; f_equal].
  - apply debiased_similarity_ext; auto.
  - apply debiased_similarity_ext; auto.
  - apply debiased_similarity_ext; auto.
Qed.

(** One feature each: centred they are (-1, 0, 1) and (-2, -1, 3), and linear
    CKA is their squared correlation, 5^2 / (2 * 14). *)
Example feature_space_linear_cka_line_kink :
  feature_space_linear_cka line3 kink3 false = Ok (25 / 28).
Proof.
  rewrite fslc_eval by (reflexivity || discriminate). f_equal.
  unfold fslc_value. cbv zeta.
  assert (Hxy : frob2 (shape1 line3) (shape1 kink3)
                  (xT_y (column_centered line3) (column_centered kink3)) = 5 * 5).
  { unfold frob2, rsum2, xT_y.
    cbn [line3 kink3 column_centered array shape0 shape1 item List.length List.hd
         nth rsum]. simpl INR. field. }
  assert (Hxx : frob2 (shape1 line3) (shape1 line3)
                  (xT_y (column_centered line3) (column_centered line3)) = 2 * 2).
  { unfold frob2, rsum2, xT_y.
    cbn [line3 column_centered array shape0 shape1 item List.length List.hd
         nth rsum]. simpl INR. field. }
  assert (Hyy : frob2 (shape1 kink3) (shape1 kink3)
                  (xT_y (column_centered kink3) (column_centered kink3)) = 14 * 14).
  { unfold frob2, rsum2, xT_y.
    cbn [kink3 column_centered array shape0 shape1 item List.length List.hd
         nth rsum]. simpl INR. field. }
  rewrite Hxy, Hxx, Hyy, !sqrt_square by lra. field.
Qed.

(** ** The debiasing helper *)

(** C4: the helper answers
    [raw - n/(n-2) (ssr_x . ssr_y) + sq_norm_x sq_norm_y / ((n-1)(n-2))], and
    debiased [feature_space_linear_cka] applies it three times: to the cross
    term and to the two self terms, whose square roots normalise; [ssr[i]]
    sums the squared column-centred features of row [i] and [sq_norm] sums
    [ssr].  The number of rows is at least 3, as the divisor [n - 2] asks. *)
Theorem debiased_helper_shared (x y : ndarray) :
  shape0 x = shape0 y -> (3 <= shape0 x)%nat ->
  let n := shape0 x in
  let xc := fun i j => item x i j - rsum n (fun k => item x k j) / INR n in
  let yc := fun i j => item y i j - rsum n (fun k => item y k j) / INR n in
  let ssr_x := fun i => rsum (shape1 x) (fun j => xc i j * xc i j) in
  let ssr_y := fun i => rsum (shape1 y) (fun j => yc i j * yc i j) in
  let sq_norm_x := rsum n ssr_x in
  let sq_norm_y := rsum n ssr_y in
  let xty := frob2 (shape1 x) (shape1 y) (fun a b => rsum n (fun i => xc i a * yc i b)) in
  let xtx := frob2 (shape1 x) (shape1 x) (fun a b => rsum n (fun i => xc i a * xc i b)) in
  let yty := frob2 (shape1 y) (shape1 y) (fun a b => rsum n (fun i => yc i a * yc i b)) in
  let helper := fun raw u v sx sy =>
    raw - INR n / (INR n - 2) * rsum n (fun i => u i * v i)
    + sx * sy / ((INR n - 1) * (INR n - 2)) in
  (forall raw u v sx sy,
     _debiased_dot_product_similarity_helper raw (mk1 n u) (mk1 n v) sx sy n
     = Ok (helper raw u v sx sy))
  /\ feature_space_linear_cka x y true
     = Ok (helper xty ssr_x ssr_y sq_norm_x sq_norm_y
           / (sqrt (helper xtx ssr_x ssr_x sq_norm_x sq_norm_x)
              * sqrt (helper yty ssr_y ssr_y sq_norm_y sq_norm_y))).
Proof.
  intros E Hn n xc yc ssr_x ssr_y sq_norm_x sq_norm_y xty xtx yty helper.
  split.
  - intros raw u v sx sy. apply helper_eval. unfold n. lia.
  - rewrite (fslc_eval x y true E) by (intros _; lia). unfold fslc_value.
    subst helper xty xtx yty sq_norm_x sq_norm_y ssr_x ssr_y xc yc n.
    unfold debiased_similarity, sum_squared_rows, xT_y.
    cbn [column_centered shape0 shape1 item]. rewrite <- E. reflexivity.
Qed.

Lemma debiased_helper_shared_witness :
  _debiased_dot_product_similarity_helper
    7 (mk1 4 (fun _ => 1)) (mk1 4 (fun i => INR i)) 4 6 4
  = Ok (7 - INR 4 / (INR 4 - 2) * rsum 4 (fun i => 1 * INR i)
        + 4 * 6 / ((INR 4 - 1) * (INR 4 - 2)))
  /\ feature_space_linear_cka ramp4 bend4 true = Ok (fslc_value ramp4 bend4 true).
Proof.
  assert (H4 : (3 <= shape0 ramp4)%nat) by (cbn; lia).
  destruct (debiased_helper_shared ramp4 bend4 eq_refl H4) as [H1 H2].
  split; [apply H1|exact H2].
Defined.

(** ** Symmetry of feature-space linear CKA *)

Lemma frob2_transpose (n m : nat) (f : nat -> nat -> R) :
  frob2 n m f = frob2 m n (fun a b => f b a).
Proof. unfold frob2, rsum2. apply rsum_swap. Qed.

Lemma xT_y_comm (x y : ndarray) (a b : nat) :
  shape0 x = shape0 y -> xT_y x y a b = xT_y y x b a.
Proof.
  intros E. unfold xT_y. rewrite E. apply rsum_ext; intros i _. ring.
Qed.





(** ** Gram-based CKA on centred arrays *)

Lemma cka_centered (gx gy cx cy : ndarray) (debiased : bool) :
  center_gram gx debiased = Ok cx -> center_gram gy debiased = Ok cy ->
  shape0 cx = shape0 cy -> shape1 cx = shape1 cy ->
  cka gx gy debiased
  = Ok (rsum2 (shape0 cx) (shape1 cx) (fun i j => item cx i j * item cy i j)
        / (np.linalg_norm cx * np.linalg_norm cy)).
Proof.
  intros Hx Hy E0 E1. unfold cka. rewrite Hx, Hy. cbn [bind].
  unfold np.vdot, np.ravel. cbn [len at1].
  rewrite <- E0, <- E1, Nat.eqb_refl. cbn [bind].
  now rewrite (rsum_ravel (shape0 cx) (shape1 cx)
                 (fun i j => item cx i j * item cy i j)).
Qed.

Lemma cka_size_mismatch (gx gy cx cy : ndarray) (debiased : bool) :
  center_gram gx debiased = Ok cx -> center_gram gy debiased = Ok cy ->
  (shape0 cx * shape1 cx <> shape0 cy * shape1 cy)%nat ->
  cka gx gy debiased = Raise np.shapes_not_aligned.
Proof.
  intros Hx Hy E. unfold cka. rewrite Hx, Hy. cbn [bind].
  unfold np.vdot, np.ravel. cbn [len at1].
  destruct (Nat.eqb_spec (shape0 cx * shape1 cx) (shape0 cy * shape1 cy));
    [contradiction|reflexivity].
Qed.

(** Biased or not, an array compared with itself scores one. *)
Lemma cka_self (g c : ndarray) (debiased : bool) :
  center_gram g debiased = Ok c -> np.linalg_norm c <> 0 ->
  cka g g debiased = Ok 1.
Proof.
  intros Hc Hn.
  rewrite (cka_centered g g c c debiased Hc Hc eq_refl eq_refl). f_equal.
  unfold np.linalg_norm in *.
  set (s := rsum2 (shape0 c) (shape1 c) (fun i j => item c i j * item c i j)) in *.
  assert (Hs : 0 <= s) by (apply rsum2_nonneg; intros; nra).
  rewrite sqrt_sqrt by exact Hs.
  apply Rdiv_diag. intros Hz. apply Hn. rewrite Hz. apply sqrt_0.
Qed.

(** ** Self-similarity *)

Lemma rsum_ge_term (n k : nat) (f : nat -> R) :
  (forall i, (i < n)%nat -> 0 <= f i) -> (k < n)%nat -> f k <= rsum n f.
Proof.
  intros H Hk.
  rewrite <- (rsum_delta n k f Hk).
  induction n as [|n IH]; [lia|].
  simpl. assert (Hn : 0 <= f n) by (apply H; lia).
  destruct (Nat.eqb_spec n k) as [->|Hne].
  - assert (0 <= rsum k f) by (apply rsum_nonneg; intros; apply H; lia).
    rewrite (rsum_ext k _ (fun _ => 0)).
    + rewrite rsum_zero. lra.
    + intros i Hi. destruct (Nat.eqb_spec i k); [lia|reflexivity].
  - assert (rsum n (fun i => if (i =? k)%nat then f i else 0) <= rsum n f).
    { apply IH; [intros; apply H; lia|lia]. }
    lra.
Qed.

Lemma linalg_norm_nonzero (c : ndarray) (i j : nat) :
  (i < shape0 c)%nat -> (j < shape1 c)%nat -> item c i j <> 0 ->
  np.linalg_norm c <> 0.
Proof.
  intros Hi Hj Hne. unfold np.linalg_norm.
  set (s := rsum2 _ _ _).
  assert (Hpos : 0 < item c i j * item c i j) by nra.
  assert (Hle : item c i j * item c i j <= s).
  { unfold s, rsum2.
    apply Rle_trans with (rsum (shape1 c) (fun j => item c i j * item c i j)).
    - apply (rsum_ge_term (shape1 c) j (fun j => item c i j * item c i j));
        [intros; nra|exact Hj].
    - apply (rsum_ge_term (shape0 c) i
               (fun i => rsum (shape1 c) (fun j => item c i j * item c i j)));
        [|exact Hi].
      intros; apply rsum_nonneg; intros; nra. }
  assert (Hs : 0 < s) by lra.
  pose proof (sqrt_lt_R0 s Hs). lra.
Qed.

Lemma centered_norm_nonzero (g : ndarray) (unbiased : bool) (i j : nat) :
  symmetric g -> (i < shape0 g)%nat -> (j < shape0 g)%nat ->
  centered unbiased (shape0 g) (item g) i j <> 0 ->
  exists c, center_gram g unbiased = Ok c /\ np.linalg_norm c <> 0.
Proof.
  intros Hsym Hi Hj Hne.
  destruct (center_gram_close g unbiased (proj1 Hsym) (symmetric_close _ Hsym))
    as [c [Hc [H0 [H1 Hitem]]]].
  exists c. split; [exact Hc|].
  apply (linalg_norm_nonzero c i j); [lia|lia|]. now rewrite Hitem.
Qed.

(** Two Gram matrices on four examples whose U-centred forms are not zero:
    entry [(0, 1)] is [5/3] for the one, [1/2] for the other. *)
Lemma sym4_centered :
  exists c, center_gram sym4 true = Ok c /\ np.linalg_norm c <> 0.
Proof.
  apply (centered_norm_nonzero sym4 true 0 1);
    [exact symmetric_sym4|cbn; lia|cbn; lia|].
  unfold centered, centered_unbiased, unbiased_shift, unbiased_means, zero_diag.
  cbn [sym4 array shape0 item List.length nth rsum Nat.eqb]. simpl INR. lra.
Qed.

Lemma path4_centered :
  exists c, center_gram path4 true = Ok c /\ np.linalg_norm c <> 0.
Proof.
  apply (centered_norm_nonzero path4 true 0 1);
    [exact symmetric_path4|cbn; lia|cbn; lia|].
  unfold centered, centered_unbiased, unbiased_shift, unbiased_means, zero_diag.
  cbn [path4 array shape0 item List.length nth rsum Nat.eqb]. simpl INR. lra.
Qed.

Lemma identity2_centered :
  exists c, center_gram identity2 false = Ok c /\ np.linalg_norm c <> 0.
Proof.
  destruct (center_gram_close identity2 false (proj1 symmetric_identity2)
              (symmetric_close _ symmetric_identity2)) as [c [Hc [H0 [H1 Hitem]]]].
  exists c. split; [exact Hc|].
  apply (linalg_norm_nonzero c 0 0); [rewrite H0; cbn; lia|rewrite H1; cbn; lia|].
  rewrite Hitem by (cbn; lia).
  unfold centered, centered_biased, biased_shift, biased_means.
  cbn [identity2 array shape0 item List.length nth rsum]. simpl INR. lra.
Qed.

(** C7: a symmetric Gram matrix whose centred form has a nonzero Frobenius
    norm has biased CKA one with itself. *)
Theorem cka_self_similarity (gram c : ndarray) :
  symmetric gram -> center_gram gram false = Ok c -> np.linalg_norm c <> 0 ->
  cka gram gram false = Ok 1.
Proof.
  intros _ Hc Hn.
  rewrite (cka_centered gram gram c c false Hc Hc eq_refl eq_refl). f_equal.
  unfold np.linalg_norm in *.
  set (s := rsum2 (shape0 c) (shape1 c) (fun i j => item c i j * item c i j)) in *.
  assert (Hs : 0 <= s) by (apply rsum2_nonneg; intros; nra).
  assert (Hpos : s <> 0) by (intros Hz; apply Hn; rewrite Hz; apply sqrt_0).
  rewrite sqrt_sqrt by exact Hs. now apply Rdiv_diag.
Qed.

Lemma cka_self_similarity_witness : cka identity2 identity2 false = Ok 1.
Proof.
  destruct identity2_centered as [c [Hc Hn]].
  exact (cka_self_similarity identity2 c symmetric_identity2 Hc Hn).
Defined.

(** ** CCA, and the symmetry of both scores *)

Lemma cca_eval (qr : ndarray -> ndarray * ndarray) (x y : ndarray) :
  shape0 (fst (qr x)) = shape0 (fst (qr y)) ->
  cca qr x y
  = Ok (frob2 (shape1 (fst (qr x))) (shape1 (fst (qr y)))
              (xT_y (fst (qr x)) (fst (qr y)))
        / INR (Nat.min (shape1 x) (shape1 y))).
Proof.
  intros E. unfold cca.
  destruct (qr x) as [qx rx]. destruct (qr y) as [qy ry]. cbn [fst] in *.
  rewrite (dot_T qx qy E). cbn [bind].
  rewrite linalg_norm_mk2, sqrt_pow2 by apply frob2_nonneg. reflexivity.
Qed.

Lemma cca_mismatch (qr : ndarray -> ndarray * ndarray) (x y : ndarray) :
  shape0 (fst (qr x)) <> shape0 (fst (qr y)) ->
  cca qr x y = Raise np.shapes_not_aligned.
Proof.
  intros E. unfold cca.
  destruct (qr x) as [qx rx]. destruct (qr y) as [qy ry]. cbn [fst] in *.
  now rewrite (dot_T_mismatch qx qy E).
Qed.

(** The reference factorisation on one column: the column over its norm, so
    that [cca] of a feature with itself is one. *)
Example cca_self_ramp4 : cca gram_schmidt_qr ramp4 ramp4 = Ok 1.
Proof.
  rewrite cca_eval by reflexivity. f_equal.
  unfold frob2, rsum2, xT_y.
  cbn [gram_schmidt_qr fst shape0 shape1 ramp4 array List.length List.hd Nat.min
       item gram_schmidt_columns app nth fold_right rsum].
  set (s := sqrt _).
  assert (Hs : s * s = 21).
  { unfold s. rewrite sqrt_sqrt; lra. }
  assert (Hs0 : s <> 0) by (intros Z; rewrite Z in Hs; lra).
  simpl INR.
  replace (0 + (0 - 0) / s * ((0 - 0) / s) + (1 - 0) / s * ((1 - 0) / s)
           + (2 - 0) / s * ((2 - 0) / s) + (4 - 0) / s * ((4 - 0) / s))
    with (21 / (s * s)) by (field; exact Hs0).
  rewrite Hs. field.
Qed.

(** C6: both scores are symmetric in their arguments: [cka] on Gram matrices
    of one size that pass the symmetry test of [center_gram], exactly
    symmetric ones among them, with N >= 3 in the debiased mode and centred
    forms of nonzero norm, so that no division is by zero; and [cca] on
    feature matrices with as many rows. *)
Theorem similarity_symmetric (qr : ndarray -> ndarray * ndarray)
    (gram_x gram_y cx cy features_x features_y : ndarray) (debiased : bool) :
  square gram_x -> symmetric_within_tol gram_x ->
  square gram_y -> symmetric_within_tol gram_y ->
  shape0 gram_x = shape0 gram_y ->
  (debiased = true -> (3 <= shape0 gram_x)%nat) ->
  center_gram gram_x debiased = Ok cx -> np.linalg_norm cx <> 0 ->
  center_gram gram_y debiased = Ok cy -> np.linalg_norm cy <> 0 ->
  (forall a, shape0 (fst (qr a)) = shape0 a) ->
  shape0 features_x = shape0 features_y ->
  (exists r, cka gram_x gram_y debiased = Ok r /\ cka gram_y gram_x debiased = Ok r)
  /\ (exists r, cca qr features_x features_y = Ok r
                /\ cca qr features_y features_x = Ok r).
Proof.
  intros Qx Sx Qy Sy En _ Hx _ Hy _ Hqr Ef. split.
  - destruct (center_gram_ok_inv _ _ _ Qx Hx) as [_ [Hx0 Hx1]].
    destruct (center_gram_ok_inv _ _ _ Qy Hy) as [_ [Hy0 Hy1]].
    assert (E0 : shape0 cx = shape0 cy) by lia.
    assert (E1 : shape1 cx = shape1 cy) by lia.
    rewrite (cka_centered gram_x gram_y cx cy debiased Hx Hy E0 E1).
    rewrite (cka_centered gram_y gram_x cy cx debiased Hy Hx (eq_sym E0) (eq_sym E1)).
    eexists; split; [reflexivity|].
    rewrite <- E0, <- E1. f_equal. f_equal.
    + apply rsum2_ext; intros; ring.
    + apply Rmult_comm.
  - assert (E : shape0 (fst (qr features_x)) = shape0 (fst (qr features_y)))
      by (rewrite !Hqr; exact Ef).
    rewrite (cca_eval qr _ _ E), (cca_eval qr _ _ (eq_sym E)).
    eexists; split; [reflexivity|].
    rewrite Nat.min_comm. f_equal. f_equal.
    rewrite frob2_transpose. apply frob2_ext; intros a b _ _.
    now apply xT_y_comm.
Qed.

Lemma similarity_symmetric_witness :
  (exists r, cka sym4 path4 true = Ok r /\ cka path4 sym4 true = Ok r)
  /\ (exists r, cca gram_schmidt_qr ramp4 bend4 = Ok r
                /\ cca gram_schmidt_qr bend4 ramp4 = Ok r).
Proof.
  destruct sym4_centered as [cx [Hx Nx]].
  destruct path4_centered as [cy [Hy Ny]].
  apply (similarity_symmetric gram_schmidt_qr sym4 path4 cx cy ramp4 bend4 true).
  - reflexivity.
  - exact (symmetric_close _ symmetric_sym4).
  - reflexivity.
  - exact (symmetric_close _ symmetric_path4).
  - reflexivity.
  - intros _. cbn. lia.
  - exact Hx.
  - exact Nx.
  - exact Hy.
  - exact Ny.
  - intros a. reflexivity.
  - reflexivity.
Defined.

(** ** Shapes that do not match *)

Lemma tall3_allclose : np.allclose tall3 (np.T tall3) = Ok true.
Proof.
  unfold np.allclose.
  cbv [np.bcast_shapes np.bcast_ok np.bcast_dim tall3 array shape0 shape1 np.T
       List.length List.hd Nat.eqb orb andb].
  f_equal. apply all_n_spec; intros i Hi. apply all_n_spec; intros j Hj.
  unfold np.isclose. apply Rleb_spec.
  assert (Hc : (i = 0 \/ i = 1 \/ i = 2)%nat) by lia.
  assert (Hd : (j = 0 \/ j = 1 \/ j = 2)%nat) by lia.
  destruct Hc as [-> | [-> | ->]], Hd as [-> | [-> | ->]];
    cbv [np.bitem shape0 shape1 item Nat.eqb nth]; solve_rabs.
Qed.

Lemma tall3_centered :
  exists c, center_gram tall3 false = Ok c /\ np.linalg_norm c <> 0.
Proof.
  unfold center_gram. rewrite tall3_allclose. cbn [bind negb].
  cbv [np.isub np.iop np.bcast_shapes np.bcast_ok np.bcast_dim np.col np.row
       np.vmap np.mean0 tall3 array shape0 shape1 len List.length List.hd
       Nat.eqb orb andb bind].
  eexists; split; [reflexivity|].
  apply (linalg_norm_nonzero _ 1 0); [cbn; lia|cbn; lia|].
  cbv [item np.bitem shape0 shape1 Nat.eqb at1 np.mean len nth rsum]. simpl INR.
  lra.
Qed.

(** The guard of [center_gram] lets a single column through: a 3 x 1 array
    whose entries agree within the tolerance of [np.allclose] is broadcast
    against its transpose, passes the symmetry test, and [cka] scores it. *)
Lemma cka_accepts_tall :
  ~ square tall3 /\ cka tall3 tall3 false = Ok 1
  /\ ~ cka_rejects_shapes tall3 tall3 false.
Proof.
  assert (Hns : ~ square tall3) by (unfold square; cbn; lia).
  assert (Hv : cka tall3 tall3 false = Ok 1).
  { destruct tall3_centered as [c [Hc Hn]]. exact (cka_self tall3 c false Hc Hn). }
  repeat split; try assumption.
  intros H. destruct (H (or_introl Hns)) as [e He].
  rewrite Hv in He. discriminate He.
Qed.

(** Every exception of [center_gram] and of [cka] is a [ValueError]. *)
Lemma iop_raises (op : R -> R -> R) (a b : ndarray) (e : exn) :
  np.iop op a b = Raise e -> exists msg, e = ValueError msg.
Proof.
  unfold np.iop.
  destruct (np.bcast_shapes a b); [destruct (_ && _)%bool|]; intros H;
    [discriminate H|injection H as <-; eexists; reflexivity ..].
Qed.

Lemma center_gram_raises (gram : ndarray) (unbiased : bool) (e : exn) :
  center_gram gram unbiased = Raise e -> exists msg, e = ValueError msg.
Proof.
  unfold center_gram, np.allclose.
  destruct (np.bcast_shapes gram (np.T gram)); cbn [bind];
    [|intros H; injection H as <-; eexists; reflexivity].
  match goal with |- context [negb ?b] => destruct b end; cbn [negb];
    [|intros H; injection H as <-; eexists; reflexivity].
  unfold np.isub.
  destruct unbiased.
  - match goal with |- context [bind (np.iop ?o ?a ?b) _] =>
      destruct (np.iop o a b) as [g1|e1] eqn:E1 end; cbn [bind];
      [|intros H; injection H as <-; exact (iop_raises _ _ _ _ E1)].
    match goal with |- context [bind (np.iop ?o ?a ?b) _] =>
      destruct (np.iop o a b) as [g2|e2] eqn:E2 end; cbn [bind];
      [intros H; discriminate H
      |intros H; injection H as <-; exact (iop_raises _ _ _ _ E2)].
  - match goal with |- context [bind (np.iop ?o ?a ?b) _] =>
      destruct (np.iop o a b) as [g1|e1] eqn:E1 end; cbn [bind];
      [|intros H; injection H as <-; exact (iop_raises _ _ _ _ E1)].
    match goal with |- context [bind (np.iop ?o ?a ?b) _] =>
      destruct (np.iop o a b) as [g2|e2] eqn:E2 end; cbn [bind];
      [intros H; discriminate H
      |intros H; injection H as <-; exact (iop_raises _ _ _ _ E2)].
Qed.

Lemma cka_raises (gram_x gram_y : ndarray) (debiased : bool) (e : exn) :
  cka gram_x gram_y debiased = Raise e -> exists msg, e = ValueError msg.
Proof.
  unfold cka.
  destruct (center_gram gram_x debiased) as [cx|ex] eqn:Ex; cbn [bind];
    [|intros H; injection H as <-; exact (center_gram_raises _ _ _ Ex)].
  destruct (center_gram gram_y debiased) as [cy|ey] eqn:Ey; cbn [bind];
    [|intros H; injection H as <-; exact (center_gram_raises _ _ _ Ey)].
  unfold np.vdot. destruct (_ =? _)%nat; cbn [bind]; intros H;
    [discriminate H|injection H as <-; eexists; reflexivity].
Qed.

(** An array that is not square fails in [center_gram], unless it is a single
    column: its shape cannot be broadcast against the transpose, or, for a
    single row, the first in-place subtraction cannot be stored. *)
Lemma center_gram_wide (gram : ndarray) (unbiased : bool) :
  not_square_wide gram ->
  exists msg, center_gram gram unbiased = Raise (ValueError msg).
Proof.
  intros [Hns H1]. unfold center_gram, np.allclose, np.bcast_shapes.
  cbn [np.T shape0 shape1].
  unfold np.bcast_ok.
  destruct (Nat.eqb_spec (shape0 gram) (shape1 gram)) as [E|_]; [contradiction|].
  destruct (Nat.eqb_spec (shape1 gram) 1) as [E|_]; [contradiction|].
  destruct (Nat.eqb_spec (shape0 gram) 1) as [E0|N0].
  - cbn [orb andb].
    replace (shape1 gram =? shape0 gram)%nat with false
      by (symmetry; apply Nat.eqb_neq; lia).
    cbn [orb andb bind].
    match goal with |- context [negb ?b] => destruct b end; cbn [negb];
      [|eexists; reflexivity].
    assert (Hiop : forall (a : ndarray) (v : ndarray1),
      shape0 a = 1%nat -> shape1 a = len v -> len v <> 1%nat ->
      np.isub a (np.col v) = Raise np.non_broadcastable_output).
    { intros a v Ha Hv Hl. unfold np.isub, np.iop, np.bcast_shapes, np.bcast_ok,
        np.bcast_dim. cbn [np.col shape0 shape1]. rewrite Ha, Hv.
      destruct (len v) as [|[|k]]; [reflexivity|contradiction|].
      cbn [Nat.eqb orb andb]. rewrite ?Nat.eqb_refl. reflexivity. }
    destruct unbiased; rewrite Hiop by (cbn; lia); cbn [bind];
      eexists; reflexivity.
  - cbn [orb andb bind]. eexists; reflexivity.
Qed.

Lemma cka_wide (gram_x gram_y : ndarray) (debiased : bool) :
  not_square_wide gram_x \/ not_square_wide gram_y ->
  exists msg, cka gram_x gram_y debiased = Raise (ValueError msg).
Proof.
  intros [Hx|Hy]; unfold cka.
  - destruct (center_gram_wide gram_x debiased Hx) as [msg ->].
    exists msg. reflexivity.
  - destruct (center_gram gram_x debiased) as [cx|ex] eqn:Ex; cbn [bind].
    + destruct (center_gram_wide gram_y debiased Hy) as [msg ->].
      exists msg. reflexivity.
    + destruct (center_gram_raises _ _ _ Ex) as [msg ->]. exists msg. reflexivity.
Qed.

Lemma not_symmetric_no_shape_error : ~ is_shape_error not_symmetric.
Proof.
  unfold is_shape_error, not_symmetric, np.shapes_not_aligned,
    np.could_not_broadcast, np.non_broadcastable_output.
  intros [H|[H|H]]; discriminate H.
Qed.

(** C8, as stated, fails: the code checks no shape before it computes.  Two
    square Gram matrices of different sizes, the first of them not symmetric:
    [cka] compares the first with its transpose and raises the symmetry
    error, which is no shape error, before the sizes ever meet. *)
Lemma cka_symmetry_error_first_counterexample :
  square lopsided2 /\ square identity3
  /\ shape0 lopsided2 <> shape0 identity3
  /\ cka lopsided2 identity3 false
     = Raise (ValueError "Input must be a symmetric matrix.")
  /\ ~ cka_fails_with_shape_error lopsided2 identity3 false.
Proof.
  assert (Hv : cka lopsided2 identity3 false = Raise not_symmetric).
  { unfold cka.
    now rewrite (center_gram_not_close lopsided2 false eq_refl lopsided2_not_close). }
  split; [reflexivity|split; [reflexivity|split; [cbn; lia|split; [exact Hv|]]]].
  intros H.
  destruct H as [e [He Hs]]; [right; right; cbn; lia|].
  rewrite Hv in He. injection He as <-.
  exact (not_symmetric_no_shape_error Hs).
Qed.

(** C8, amended: feature matrices with different numbers of rows make
    [feature_space_linear_cka] and [cca] raise numpy's [ValueError] for shapes
    that are not aligned; [cka] raises a [ValueError] when one of the two Gram
    matrices, in either position, is not square and not a single column, and
    when both are square of different sizes: the error for shapes that are
    not aligned once both pass the symmetry test. *)
Theorem shape_mismatch_raises (qr : ndarray -> ndarray * ndarray)
    (features_x features_y gram_x gram_y : ndarray) (debiased : bool) :
  shape0 features_x <> shape0 features_y ->
  (forall a, shape0 (fst (qr a)) = shape0 a) ->
  (not_square_wide gram_x \/ not_square_wide gram_y
   \/ (square gram_x /\ square gram_y /\ shape0 gram_x <> shape0 gram_y)) ->
  feature_space_linear_cka features_x features_y debiased
    = Raise (ValueError "shapes not aligned")
  /\ cca qr features_x features_y = Raise (ValueError "shapes not aligned")
  /\ (exists msg, cka gram_x gram_y debiased = Raise (ValueError msg))
  /\ (square gram_x -> square gram_y ->
      symmetric_within_tol gram_x -> symmetric_within_tol gram_y ->
      cka gram_x gram_y debiased = Raise (ValueError "shapes not aligned")).
Proof.
  intros Ef Hqr Hg. split; [|split].
  - destruct (sub_mean features_x) as [xc [Hxc [Hx0 _]]].
    destruct (sub_mean features_y) as [yc [Hyc [Hy0 _]]].
    unfold feature_space_linear_cka. rewrite Hxc, Hyc. cbn [bind].
    rewrite dot_T_mismatch by lia. reflexivity.
  - apply cca_mismatch. rewrite !Hqr. exact Ef.
  - assert (Hboth : square gram_x -> square gram_y ->
                    symmetric_within_tol gram_x -> symmetric_within_tol gram_y ->
                    cka gram_x gram_y debiased = Raise np.shapes_not_aligned).
    { intros Sx Sy Cx Cy.
      assert (Eg : shape0 gram_x <> shape0 gram_y).
      { destruct Hg as [[N _]|[[N _]|[_ [_ N]]]];
          [contradiction|contradiction|exact N]. }
      destruct (center_gram_close gram_x debiased Sx Cx) as [cx [Hx [Hx0 [Hx1 _]]]].
      destruct (center_gram_close gram_y debiased Sy Cy) as [cy [Hy [Hy0 [Hy1 _]]]].
      apply (cka_size_mismatch gram_x gram_y cx cy debiased Hx Hy).
      rewrite Hx0, Hx1, Hy0, Hy1. nia. }
    split; [|exact Hboth].
    destruct Hg as [Wx|[Wy|[Sx [Sy Eg]]]];
      [apply cka_wide; now left|apply cka_wide; now right|].
    destruct (allclose_square gram_x Sx) as [bx [Hbx Hix]].
    destruct (allclose_square gram_y Sy) as [by_ [Hby Hiy]].
    destruct bx.
    + destruct by_.
      * eexists. apply Hboth; [exact Sx|exact Sy|apply Hix|apply Hiy]; reflexivity.
      * assert (Cx : symmetric_within_tol gram_x) by now apply Hix.
        assert (Cy : ~ symmetric_within_tol gram_y)
          by (intros C; apply Hiy in C; discriminate C).
        destruct (center_gram_close gram_x debiased Sx Cx) as [cx [Hx _]].
        eexists. unfold cka. rewrite Hx. cbn [bind].
        rewrite (center_gram_not_close gram_y debiased Sy Cy). reflexivity.
    + assert (Cx : ~ symmetric_within_tol gram_x)
        by (intros C; apply Hix in C; discriminate C).
      eexists. unfold cka.
      rewrite (center_gram_not_close gram_x debiased Sx Cx). reflexivity.
Qed.

Lemma shape_mismatch_raises_witness :
  (feature_space_linear_cka identity3 ramp4 false
     = Raise (ValueError "shapes not aligned")
   /\ cca gram_schmidt_qr identity3 ramp4 = Raise (ValueError "shapes not aligned")
   /\ cka identity2 identity3 false = Raise (ValueError "shapes not aligned"))
  /\ (exists msg, cka wide2 identity3 false = Raise (ValueError msg))
  /\ (exists msg, cka identity3 wide2 false = Raise (ValueError msg)).
Proof.
  assert (Ef : shape0 identity3 <> shape0 ramp4) by (cbn; lia).
  assert (Hqr : forall a, shape0 (fst (gram_schmidt_qr a)) = shape0 a)
    by (intros a; reflexivity).
  assert (Hw : not_square_wide wide2) by (split; cbn; lia).
  split; [|split].
  - destruct (shape_mismatch_raises gram_schmidt_qr identity3 ramp4
                identity2 identity3 false Ef Hqr) as [H1 [H2 [_ H4]]].
    + right; right. split; [reflexivity|split; [reflexivity|cbn; lia]].
    + split; [exact H1|split; [exact H2|]].
      apply H4; [reflexivity|reflexivity
                |exact (symmetric_close _ symmetric_identity2)
                |exact (symmetric_close _ symmetric_identity3)].
  - apply (shape_mismatch_raises gram_schmidt_qr identity3 ramp4
             wide2 identity3 false Ef Hqr). left. exact Hw.
  - apply (shape_mismatch_raises gram_schmidt_qr identity3 ramp4
             identity3 wide2 false Ef Hqr). right; left. exact Hw.
Defined.

(** ** The RBF kernel *)

Lemma map_seq_shift (f g : nat -> R) (s p : nat) :
  (forall j, (j < p)%nat -> f (s + j)%nat = g j) ->
  List.map f (seq s p) = List.map g (seq 0 p).
Proof.
  revert s g. induction p as [|p IH]; intros s g H; [reflexivity|].
  cbn [seq List.map]. f_equal.
  - rewrite <- (H O) by lia. now rewrite Nat.add_0_r.
  - rewrite <- (seq_shift p 0), map_map. apply IH.
    intros j Hj. rewrite <- H by lia. f_equal. lia.
Qed.

Lemma tolist_ravel (a : ndarray) :
  np.tolist (np.ravel a)
  = flat_map (fun i => List.map (fun j => item a i j) (seq 0 (shape1 a)))
             (seq 0 (shape0 a)).
Proof.
  unfold np.tolist, np.ravel. cbn [len at1].
  generalize (shape0 a) as n. intros n.
  induction n as [|n IH]; [reflexivity|].
  replace (S n * shape1 a)%nat with (n * shape1 a + shape1 a)%nat by lia.
  rewrite seq_app, map_app, IH. rewrite seq_S, flat_map_app. f_equal.
  cbn [flat_map Nat.add]. rewrite app_nil_r.
  apply map_seq_shift. intros j Hj.
  assert (Hm : shape1 a <> O) by lia.
  replace ((n * shape1 a + j) / shape1 a)%nat with n.
  - replace ((n * shape1 a + j) mod shape1 a)%nat with j; [reflexivity|].
    rewrite Nat.add_comm, Nat.Div0.mod_add. symmetry. now apply Nat.mod_small.
  - rewrite Nat.add_comm, Nat.div_add by exact Hm.
    rewrite Nat.div_small by exact Hj. reflexivity.
Qed.

Lemma all_entries_ext (n : nat) (f h : nat -> nat -> R) :
  (forall i j, (i < n)%nat -> (j < n)%nat -> f i j = h i j) ->
  rbf_spec.all_entries n f = rbf_spec.all_entries n h.
Proof.
  intros H. unfold rbf_spec.all_entries.
  rewrite !flat_map_concat_map. f_equal.
  apply map_ext_in; intros i Hi. apply in_seq in Hi.
  apply map_ext_in; intros j Hj. apply in_seq in Hj. apply H; lia.
Qed.

Lemma all_entries_length (n : nat) (f : nat -> nat -> R) :
  List.length (rbf_spec.all_entries n f) = (n * n)%nat.
Proof.
  unfold rbf_spec.all_entries.
  rewrite (flat_map_constant_length (c := n)).
  - now rewrite length_seq.
  - intros i _. now rewrite length_map, length_seq.
Qed.

Lemma all_entries_in (n : nat) (f : nat -> nat -> R) (i j : nat) :
  (i < n)%nat -> (j < n)%nat -> In (f i j) (rbf_spec.all_entries n f).
Proof.
  intros Hi Hj. unfold rbf_spec.all_entries. apply in_flat_map.
  exists i. split; [apply in_seq; lia|].
  apply in_map_iff. exists j. split; [reflexivity|apply in_seq; lia].
Qed.

Lemma gram_rbf_eval (x : ndarray) (threshold : R) :
  exists k, gram_rbf x threshold = Ok k
            /\ array_eq k (mk2 (shape0 x) (shape0 x) (rbf_spec.kernel x threshold)).
Proof.
  set (n := shape0 x).
  unfold gram_rbf, np.dot. cbn [np.T shape0 shape1 item].
  rewrite Nat.eqb_refl. cbn [bind].
  unfold np.add. rewrite binop_col by (cbn; now rewrite Nat.min_id).
  cbn [bind]. rewrite binop_row by (cbn; now rewrite Nat.min_id).
  cbn [bind].
  match goal with |- context [Ok (np.map _ ?D)] => set (d := D) end.
  eexists; split; [reflexivity|].
  unfold array_eq. cbn [np.map shape0 shape1 item].
  split; [reflexivity|split; [reflexivity|]].
  assert (Hd : forall i j, (i < n)%nat -> (j < n)%nat ->
               item d i j = rbf_spec.sq_distance x i j).
  { intros i j Hi Hj. unfold d. cbn [item].
    rewrite bitem_row by (cbn; rewrite Nat.min_id; exact Hj).
    rewrite bitem_in by (cbn; assumption). cbn [item].
    rewrite bitem_col by (cbn; rewrite Nat.min_id; exact Hi).
    rewrite bitem_in by (cbn; assumption). cbn [np.map np.diag item at1].
    unfold rbf_spec.sq_distance, rbf_spec.g. ring. }
  assert (Hm : np.median d
               = np.median_list (rbf_spec.all_entries n (rbf_spec.sq_distance x))).
  { unfold np.median. rewrite tolist_ravel.
    change (shape0 d) with n. change (shape1 d) with n.
    fold (rbf_spec.all_entries n (item d)).
    now rewrite (all_entries_ext n (item d) (rbf_spec.sq_distance x) Hd). }
  intros i j Hi Hj. rewrite Hd, Hm by assumption.
  unfold rbf_spec.kernel, rbf_spec.bandwidth. fold n.
  f_equal. f_equal. ring.
Qed.

(** C5: [gram_rbf] takes squared distances [g(i,i) - 2 g(i,j) + g(j,j)] from
    [g = X X^t], sets the bandwidth to [threshold^2] times their median over
    all N^2 entries, the zero diagonal among them, and answers
    [exp(-d2 / (2 sigma^2))] entry by entry. *)
Theorem gram_rbf_spec (x : ndarray) (threshold : R) :
  let n := shape0 x in
  (exists k, gram_rbf x threshold = Ok k
             /\ array_eq k (mk2 n n (rbf_spec.kernel x threshold)))
  /\ List.length (rbf_spec.all_entries n (rbf_spec.sq_distance x)) = (n * n)%nat
  /\ forall i, (i < n)%nat ->
       rbf_spec.sq_distance x i i = 0
       /\ In (rbf_spec.sq_distance x i i)
             (rbf_spec.all_entries n (rbf_spec.sq_distance x)).
Proof.
  intros n. split; [|split].
  - apply gram_rbf_eval.
  - apply all_entries_length.
  - intros i Hi. split.
    + unfold rbf_spec.sq_distance. ring.
    + now apply all_entries_in.
Qed.

Lemma Rleb_true (x y : R) : x <= y -> Rleb x y = true.
Proof. apply Rleb_spec. Qed.

Lemma Rleb_false (x y : R) : y < x -> Rleb x y = false.
Proof.
  intros H. destruct (Rleb x y) eqn:E; [|reflexivity].
  apply Rleb_spec in E. lra.
Qed.

(** Two points at distance one: the squared distances are 0, 1, 1, 0, their
    median is 1/2, and with threshold 1 the kernel is [exp(-d2)]. *)
Example gram_rbf_two_points :
  exists k, gram_rbf two_points 1 = Ok k
            /\ item k 0 0 = 1 /\ item k 0 1 = exp (-1)
            /\ item k 1 0 = exp (-1) /\ item k 1 1 = 1.
Proof.
  destruct (gram_rbf_eval two_points 1) as [k [Hk [H0 [H1 Hitem]]]].
  exists k. split; [exact Hk|].
  assert (Hd : forall i j, rbf_spec.sq_distance two_points i j
                 = item two_points i 0 * item two_points i 0
                   - 2 * (item two_points i 0 * item two_points j 0)
                   + item two_points j 0 * item two_points j 0).
  { intros i j. unfold rbf_spec.sq_distance, rbf_spec.g.
    cbn [two_points array shape1 List.length List.hd rsum]. ring. }
  assert (Hl : rbf_spec.all_entries (shape0 two_points)
                 (rbf_spec.sq_distance two_points) = [0; 1; 1; 0]).
  { unfold rbf_spec.all_entries.
    cbn [shape0 two_points array List.length seq flat_map List.map app].
    rewrite !Hd. cbn [two_points array item nth].
    f_equal; [ring|f_equal; [ring|f_equal; [ring|f_equal; ring]]]. }
  assert (Hmed : rbf_spec.bandwidth two_points 1 = / 2).
  { unfold rbf_spec.bandwidth, np.median_list. rewrite Hl.
    cbn [np.sort np.insert].
    rewrite (Rleb_false 1 0) by lra. cbn [np.insert].
    rewrite (Rleb_false 1 0), (Rleb_true 1 1) by lra. cbn [np.insert].
    rewrite (Rleb_true 0 0) by lra.
    simpl. lra. }
  cbn [shape0 shape1 item] in H0, H1, Hitem.
  rewrite !Hitem by (rewrite ?H0, ?H1; cbn; lia).
  unfold rbf_spec.kernel. rewrite Hmed, !Hd.
  cbn [two_points array item nth].
  repeat split.
  - rewrite <- exp_0. f_equal. field.
  - f_equal. field.
  - f_equal. field.
  - rewrite <- exp_0. f_equal. field.
Qed.

(** ** Linear CKA, biased: Gram matrices of centred features *)

Lemma gram_entry_sym (x : ndarray) (i j : nat) : gram_entry x i j = gram_entry x j i.
Proof. unfold gram_entry. apply rsum_ext; intros; ring. Qed.

Lemma gram_centered_expand (x : ndarray) (i j : nat) :
  gram_entry (column_centered x) i j
  = gram_entry x i j - mean_dot x i - mean_dot x j + mean_sq x.
Proof.
  unfold gram_entry, mean_dot, mean_sq. cbn [column_centered shape0 shape1 item].
  rewrite <- !rsum_minus, <- rsum_plus.
  apply rsum_ext; intros k _. fold (column_mean x k). ring.
Qed.

Lemma biased_means_gram (x : ndarray) (j : nat) :
  biased_means (shape0 x) (gram_entry x) j = mean_dot x j.
Proof.
  unfold biased_means, gram_entry, mean_dot.
  rewrite rsum_swap. unfold Rdiv. rewrite <- rsum_scal_r.
  apply rsum_ext; intros k _. rewrite rsum_scal_r. unfold column_mean, Rdiv. ring.
Qed.

Lemma mean_of_biased_means (x : ndarray) :
  rsum (shape0 x) (mean_dot x) / INR (shape0 x) = mean_sq x.
Proof.
  unfold mean_dot, mean_sq. rewrite rsum_swap. unfold Rdiv. rewrite <- rsum_scal_r.
  apply rsum_ext; intros k _. rewrite rsum_scal_r. unfold column_mean, Rdiv. ring.
Qed.

(** Centring the Gram matrix is taking the Gram matrix of centred features. *)
Lemma centered_biased_gram (x : ndarray) (i j : nat) :
  centered_biased (shape0 x) (gram_entry x) i j = gram_entry (column_centered x) i j.
Proof.
  unfold centered_biased, biased_shift.
  rewrite (rsum_ext (shape0 x) (biased_means (shape0 x) (gram_entry x)) (mean_dot x))
    by (intros; apply biased_means_gram).
  rewrite mean_of_biased_means, !biased_means_gram, gram_centered_expand. lra.
Qed.

(** [<u u^t, v v^t> = ||u^t v||_F^2] *)
Lemma gram_frobenius (u v : ndarray) :
  rsum2 (shape0 u) (shape0 u) (fun i j => gram_entry u i j * gram_entry v i j)
  = frob2 (shape1 u) (shape1 v) (xT_y u v).
Proof.
  unfold frob2, rsum2, xT_y, gram_entry.
  set (n := shape0 u). set (p := shape1 u). set (q := shape1 v).
  set (F := fun i j a b => item u i a * item u j a * (item v i b * item v j b)).
  transitivity (rsum n (fun i => rsum n (fun j => rsum p (fun a => rsum q (fun b =>
                  F i j a b))))).
  { apply rsum_ext; intros i _. apply rsum_ext; intros j _.
    rewrite rsum_mul. reflexivity. }
  transitivity (rsum p (fun a => rsum q (fun b => rsum n (fun i => rsum n (fun j =>
                  F i j a b))))).
  { transitivity (rsum n (fun i => rsum p (fun a => rsum n (fun j => rsum q (fun b =>
                    F i j a b))))).
    { apply rsum_ext; intros i _. apply rsum_swap. }
    rewrite rsum_swap. apply rsum_ext; intros a _.
    transitivity (rsum n (fun i => rsum q (fun b => rsum n (fun j => F i j a b)))).
    { apply rsum_ext; intros i _. apply rsum_swap. }
    apply rsum_swap. }
  apply rsum_ext; intros a _. apply rsum_ext; intros b _.
  rewrite rsum_mul. apply rsum_ext; intros i _. apply rsum_ext; intros j _.
  unfold F. ring.
Qed.

(** ** Linear CKA, unbiased: U-centring *)

Section UCentering.

Variable n : nat.
Hypothesis Hn : (3 <= n)%nat.

Lemma n_minus_2 : INR n - 2 <> 0.
Proof. apply le_INR in Hn. simpl in Hn. lra. Qed.

Lemma n_minus_1 : INR n - 1 <> 0.
Proof. apply le_INR in Hn. simpl in Hn. lra. Qed.

Lemma unbiased_shift_colsum (t : nat -> nat -> R) (j : nat) :
  unbiased_shift n t j
  = colsum n t j / (INR n - 2)
    - rsum n (colsum n t) / (INR n - 2) / (2 * (INR n - 1)).
Proof.
  unfold unbiased_shift.
  rewrite <- (rsum_div n (INR n - 2) (colsum n t)). reflexivity.
Qed.

Lemma sum_unbiased_shift (t : nat -> nat -> R) :
  rsum n (unbiased_shift n t) = rsum n (colsum n t) / (2 * (INR n - 1)).
Proof.
  rewrite (rsum_ext n _ (fun j => colsum n t j / (INR n - 2)
    - rsum n (colsum n t) / (INR n - 2) / (2 * (INR n - 1))))
    by (intros; apply unbiased_shift_colsum).
  rewrite rsum_minus, rsum_div, rsum_const.
  pose proof n_minus_2. pose proof n_minus_1. field. split; assumption.
Qed.

(** Adding [a i + a j] off the diagonal moves every shift by [a j]. *)
Section Translate.

Variables t t' : nat -> nat -> R.
Variable a : nat -> R.
Hypothesis Ht : forall i j, (i < n)%nat -> (j < n)%nat -> i <> j ->
  t i j = t' i j + a i + a j.

Lemma colsum_translate (j : nat) :
  (j < n)%nat ->
  colsum n t j = colsum n t' j + rsum n a + (INR n - 2) * a j.
Proof.
  intros Hj. unfold colsum.
  rewrite (rsum_ext n _ (fun i => zero_diag t' i j
              + (if (i =? j)%nat then 0 else a i)
              + (if (i =? j)%nat then 0 else a j))).
  - rewrite !rsum_plus, (rsum_skip n j a Hj), (rsum_skip n j (fun _ => a j) Hj).
    rewrite rsum_const. ring.
  - intros i Hi. unfold zero_diag.
    destruct (Nat.eqb_spec i j) as [_|Hne]; [ring|now apply Ht].
Qed.

Lemma total_translate :
  rsum n (colsum n t) = rsum n (colsum n t') + 2 * (INR n - 1) * rsum n a.
Proof.
  rewrite (rsum_ext n (colsum n t)
             (fun j => colsum n t' j + rsum n a + (INR n - 2) * a j))
    by (intros; now apply colsum_translate).
  rewrite !rsum_plus, rsum_const, rsum_scal_l. ring.
Qed.

Lemma shift_translate (j : nat) :
  (j < n)%nat -> unbiased_shift n t j = unbiased_shift n t' j + a j.
Proof.
  intros Hj. rewrite !unbiased_shift_colsum, total_translate, colsum_translate by exact Hj.
  pose proof n_minus_2. pose proof n_minus_1. field. split; assumption.
Qed.

Lemma centered_unbiased_translate (i j : nat) :
  (i < n)%nat -> (j < n)%nat ->
  centered_unbiased n t i j = centered_unbiased n t' i j.
Proof.
  intros Hi Hj. unfold centered_unbiased, zero_diag.
  destruct (Nat.eqb_spec i j) as [_|Hne]; [reflexivity|].
  rewrite !shift_translate, Ht by assumption. ring.
Qed.

End Translate.

(** The inner product of two U-centred symmetric tables. *)
Section InnerProduct.

Variables ta tb : nat -> nat -> R.
Hypothesis Sa : forall i j, (i < n)%nat -> (j < n)%nat -> ta i j = ta j i.
Hypothesis Sb : forall i j, (i < n)%nat -> (j < n)%nat -> tb i j = tb j i.

Lemma rowsum_colsum (t : nat -> nat -> R) (i : nat) :
  (forall i j, (i < n)%nat -> (j < n)%nat -> t i j = t j i) ->
  (i < n)%nat -> rsum n (zero_diag t i) = colsum n t i.
Proof.
  intros St Hi. unfold colsum. apply rsum_ext; intros j Hj.
  unfold zero_diag. rewrite (Nat.eqb_sym j i).
  destruct (i =? j)%nat; [reflexivity|now apply St].
Qed.

Lemma centered_unbiased_sym (t : nat -> nat -> R) (i j : nat) :
  (forall i j, (i < n)%nat -> (j < n)%nat -> t i j = t j i) ->
  (i < n)%nat -> (j < n)%nat ->
  centered_unbiased n t i j = centered_unbiased n t j i.
Proof.
  intros St Hi Hj. unfold centered_unbiased, zero_diag.
  rewrite (Nat.eqb_sym j i). destruct (i =? j)%nat; [reflexivity|].
  rewrite (St i j Hi Hj). ring.
Qed.

Lemma centered_unbiased_split (t : nat -> nat -> R) (i j : nat) :
  centered_unbiased n t i j
  = zero_diag t i j
    - (if (i =? j)%nat then 0 else unbiased_shift n t i)
    - (if (i =? j)%nat then 0 else unbiased_shift n t j).
Proof.
  unfold centered_unbiased, zero_diag. destruct (i =? j)%nat; ring.
Qed.

(** The rows of a U-centred table sum to zero. *)
Lemma rowsum_centered_unbiased (t : nat -> nat -> R) (i : nat) :
  (forall i j, (i < n)%nat -> (j < n)%nat -> t i j = t j i) ->
  (i < n)%nat -> rsum n (fun j => centered_unbiased n t i j) = 0.
Proof.
  intros St Hi.
  rewrite (rsum_ext n _ (fun j => zero_diag t i j
    - (if (i =? j)%nat then 0 else unbiased_shift n t i)
    - (if (i =? j)%nat then 0 else unbiased_shift n t j)))
    by (intros; apply centered_unbiased_split).
  rewrite !rsum_minus, (rowsum_colsum t i St Hi).
  rewrite (rsum_skip' n i (fun _ => unbiased_shift n t i) Hi).
  rewrite (rsum_skip' n i (unbiased_shift n t) Hi).
  rewrite rsum_const, sum_unbiased_shift, unbiased_shift_colsum.
  pose proof n_minus_2. pose proof n_minus_1. field. split; assumption.
Qed.

Lemma colsum_centered_unbiased (t : nat -> nat -> R) (j : nat) :
  (forall i j, (i < n)%nat -> (j < n)%nat -> t i j = t j i) ->
  (j < n)%nat -> rsum n (fun i => centered_unbiased n t i j) = 0.
Proof.
  intros St Hj. rewrite <- (rowsum_centered_unbiased t j St Hj).
  apply rsum_ext; intros i Hi. now apply centered_unbiased_sym.
Qed.

(** Only the first factor has to be centred. *)
Lemma inner_drop_centering :
  rsum2 n n (fun i j => centered_unbiased n ta i j * centered_unbiased n tb i j)
  = rsum2 n n (fun i j => zero_diag ta i j * centered_unbiased n tb i j).
Proof.
  unfold rsum2.
  set (v := centered_unbiased n tb).
  set (al := unbiased_shift n ta).
  assert (E : forall i j, centered_unbiased n ta i j * v i j
                = zero_diag ta i j * v i j - al i * v i j - al j * v i j).
  { intros i j. unfold v, al, centered_unbiased, zero_diag.
    destruct (i =? j)%nat; ring. }
  rewrite (rsum_ext n _ (fun i => rsum n (fun j => zero_diag ta i j * v i j)
                                  - al i * rsum n (fun j => v i j)
                                  - rsum n (fun j => al j * v i j))).
  2:{ intros i _. rewrite <- rsum_scal_l, <- !rsum_minus.
      apply rsum_ext; intros j _. apply E. }
  rewrite !rsum_minus.
  rewrite (rsum_ext n (fun i => al i * rsum n (fun j => v i j)) (fun _ => 0)).
  2:{ intros i Hi. unfold v. rewrite (rowsum_centered_unbiased tb i Sb Hi). ring. }
  rewrite (rsum_swap n n (fun i j => al j * v i j)).
  rewrite (rsum_ext n (fun j => rsum n (fun i => al j * v i j)) (fun _ => 0)).
  2:{ intros j Hj. rewrite rsum_scal_l. unfold v.
      rewrite (colsum_centered_unbiased tb j Sb Hj). ring. }
  rewrite rsum_zero. ring.
Qed.

Lemma inner_unbiased :
  rsum2 n n (fun i j => centered_unbiased n ta i j * centered_unbiased n tb i j)
  = rsum2 n n (fun i j => zero_diag ta i j * zero_diag tb i j)
    - 2 / (INR n - 2) * rsum n (fun i => colsum n ta i * colsum n tb i)
    + rsum n (colsum n ta) * rsum n (colsum n tb) / ((INR n - 1) * (INR n - 2)).
Proof.
  rewrite inner_drop_centering. unfold rsum2.
  set (be := unbiased_shift n tb).
  assert (E : forall i j, zero_diag ta i j * centered_unbiased n tb i j
                = zero_diag ta i j * zero_diag tb i j
                  - be i * zero_diag ta i j - be j * zero_diag ta i j).
  { intros i j. unfold be, centered_unbiased, zero_diag.
    destruct (i =? j)%nat; ring. }
  rewrite (rsum_ext n _ (fun i => rsum n (fun j => zero_diag ta i j * zero_diag tb i j)
                                  - be i * colsum n ta i
                                  - rsum n (fun j => be j * zero_diag ta i j))).
  2:{ intros i Hi. rewrite <- (rowsum_colsum ta i Sa Hi).
      rewrite <- rsum_scal_l, <- !rsum_minus.
      apply rsum_ext; intros j _. apply E. }
  rewrite !rsum_minus.
  rewrite (rsum_swap n n (fun i j => be j * zero_diag ta i j)).
  rewrite (rsum_ext n (fun j => rsum n (fun i => be j * zero_diag ta i j))
             (fun j => be j * colsum n ta j))
    by (intros j _; now rewrite rsum_scal_l).
  rewrite (rsum_ext n (fun i => be i * colsum n ta i)
             (fun i => / (INR n - 2) * (colsum n ta i * colsum n tb i)
                       - rsum n (colsum n tb) / (INR n - 2) / (2 * (INR n - 1))
                         * colsum n ta i)).
  2:{ intros i _. unfold be. rewrite unbiased_shift_colsum. unfold Rdiv. ring. }
  rewrite rsum_minus, !rsum_scal_l.
  pose proof n_minus_2. pose proof n_minus_1. field. split; assumption.
Qed.

End InnerProduct.

End UCentering.

(** ** U-centred Gram matrices of centred features *)

Lemma INR_pos_nonzero (n : nat) : (0 < n)%nat -> INR n <> 0.
Proof. intros H. apply not_0_INR. lia. Qed.

Lemma column_centered_sum (x : ndarray) (k : nat) :
  (0 < shape0 x)%nat ->
  rsum (shape0 x) (fun i => item (column_centered x) i k) = 0.
Proof.
  intros Hn. cbn [column_centered item].
  rewrite rsum_minus, rsum_const.
  pose proof (INR_pos_nonzero _ Hn). field. assumption.
Qed.

Lemma gram_centered_column (x : ndarray) (j : nat) :
  (0 < shape0 x)%nat ->
  rsum (shape0 x) (fun i => gram_entry (column_centered x) i j) = 0.
Proof.
  intros Hn. unfold gram_entry. rewrite rsum_swap.
  rewrite (rsum_ext _ _ (fun _ => 0)); [apply rsum_zero|].
  intros k _. rewrite rsum_scal_r, (column_centered_sum x k Hn). ring.
Qed.

Lemma colsum_gram_centered (x : ndarray) (j : nat) :
  (j < shape0 x)%nat ->
  colsum (shape0 x) (gram_entry (column_centered x)) j
  = - sum_squared_rows (column_centered x) j.
Proof.
  intros Hj. unfold colsum, zero_diag.
  rewrite (rsum_skip (shape0 x) j (fun i => gram_entry (column_centered x) i j) Hj).
  rewrite gram_centered_column by lia.
  unfold gram_entry, sum_squared_rows. ring.
Qed.

Lemma offdiag_product (n : nat) (ta tb : nat -> nat -> R) :
  rsum2 n n (fun i j => zero_diag ta i j * zero_diag tb i j)
  = rsum2 n n (fun i j => ta i j * tb i j) - rsum n (fun i => ta i i * tb i i).
Proof.
  unfold rsum2. rewrite <- rsum_minus. apply rsum_ext; intros i Hi.
  rewrite <- (rsum_skip' n i (fun j => ta i j * tb i j) Hi).
  apply rsum_ext; intros j _. unfold zero_diag. destruct (i =? j)%nat; ring.
Qed.

(** The inner product of the two U-centred linear Gram matrices is the
    debiased dot-product similarity of the centred features. *)
Lemma unbiased_inner_gram (x y : ndarray) :
  shape0 x = shape0 y -> (3 <= shape0 x)%nat ->
  let n := shape0 x in
  let xc := column_centered x in
  let yc := column_centered y in
  rsum2 n n (fun i j => centered_unbiased n (gram_entry x) i j
                        * centered_unbiased n (gram_entry y) i j)
  = debiased_similarity (frob2 (shape1 x) (shape1 y) (xT_y xc yc)) n
      (sum_squared_rows xc) (sum_squared_rows yc)
      (rsum n (sum_squared_rows xc)) (rsum n (sum_squared_rows yc)) n.
Proof.
  intros E Hn n xc yc.
  assert (Tx : forall i j, (i < n)%nat -> (j < n)%nat ->
    centered_unbiased n (gram_entry x) i j = centered_unbiased n (gram_entry xc) i j).
  { intros i j Hi Hj.
    apply (centered_unbiased_translate n Hn _ _
             (fun i => mean_dot x i - mean_sq x / 2)); try assumption.
    intros i' j' _ _ _. unfold xc. rewrite gram_centered_expand. lra. }
  assert (Ty : forall i j, (i < n)%nat -> (j < n)%nat ->
    centered_unbiased n (gram_entry y) i j = centered_unbiased n (gram_entry yc) i j).
  { intros i j Hi Hj.
    apply (centered_unbiased_translate n Hn _ _
             (fun i => mean_dot y i - mean_sq y / 2)); try assumption.
    intros i' j' _ _ _. unfold yc. rewrite gram_centered_expand. lra. }
  rewrite (rsum2_ext n n _ (fun i j => centered_unbiased n (gram_entry xc) i j
                                      * centered_unbiased n (gram_entry yc) i j))
    by (intros i j Hi Hj; now rewrite Tx, Ty).
  rewrite (inner_unbiased n Hn (gram_entry xc) (gram_entry yc))
    by (intros; apply gram_entry_sym).
  assert (Cx : forall i, (i < n)%nat ->
    colsum n (gram_entry xc) i = - sum_squared_rows xc i)
    by (intros i Hi; now apply colsum_gram_centered).
  assert (Cy : forall i, (i < n)%nat ->
    colsum n (gram_entry yc) i = - sum_squared_rows yc i).
  { intros i Hi. unfold n. rewrite E. apply colsum_gram_centered. lia. }
  rewrite (rsum_ext n (fun i => colsum n (gram_entry xc) i * colsum n (gram_entry yc) i)
             (fun i => sum_squared_rows xc i * sum_squared_rows yc i))
    by (intros i Hi; rewrite Cx, Cy by exact Hi; ring).
  rewrite (rsum_ext n (colsum n (gram_entry xc)) (fun i => -1 * sum_squared_rows xc i))
    by (intros i Hi; rewrite Cx by exact Hi; ring).
  rewrite (rsum_ext n (colsum n (gram_entry yc)) (fun i => -1 * sum_squared_rows yc i))
    by (intros i Hi; rewrite Cy by exact Hi; ring).
  rewrite !rsum_scal_l, offdiag_product.
  pose proof (gram_frobenius xc yc) as F.
  change (shape0 xc) with n in F. rewrite F.
  change (shape1 xc) with (shape1 x). change (shape1 yc) with (shape1 y).
  unfold debiased_similarity.
  rewrite (rsum_ext n (fun i => gram_entry xc i i * gram_entry yc i i)
             (fun i => sum_squared_rows xc i * sum_squared_rows yc i))
    by (intros; reflexivity).
  pose proof (n_minus_2 n Hn). pose proof (n_minus_1 n Hn). field. split; assumption.
Qed.

Lemma biased_inner_gram (x y : ndarray) :
  shape0 x = shape0 y ->
  let n := shape0 x in
  rsum2 n n (fun i j => centered_biased n (gram_entry x) i j
                        * centered_biased n (gram_entry y) i j)
  = frob2 (shape1 x) (shape1 y) (xT_y (column_centered x) (column_centered y)).
Proof.
  intros E n.
  rewrite (rsum2_ext n n _ (fun i j => gram_entry (column_centered x) i j
                                      * gram_entry (column_centered y) i j)).
  - apply (gram_frobenius (column_centered x) (column_centered y)).
  - intros i j _ _. unfold n. rewrite centered_biased_gram.
    rewrite E, centered_biased_gram. reflexivity.
Qed.

(** ** Linear CKA from examples and from features *)

Lemma gram_linear_eval (x : ndarray) :
  gram_linear x = Ok (mk2 (shape0 x) (shape0 x) (gram_entry x)).
Proof.
  unfold gram_linear, np.dot. cbn [np.T shape0 shape1 item].
  now rewrite Nat.eqb_refl.
Qed.

Lemma gram_linear_symmetric (x : ndarray) :
  symmetric (mk2 (shape0 x) (shape0 x) (gram_entry x)).
Proof.
  split; [reflexivity|]. cbn [shape0 item]. intros i j _ _. apply gram_entry_sym.
Qed.

(** [cka] on the two linear Gram matrices, in terms of the centred tables. *)
Lemma cka_gram_linear (x y : ndarray) (debiased : bool) :
  shape0 x = shape0 y ->
  let n := shape0 x in
  let inner := fun u v =>
    rsum2 n n (fun i j => centered debiased n (gram_entry u) i j
                          * centered debiased n (gram_entry v) i j) in
  (gx <- gram_linear x ;; gy <- gram_linear y ;; cka gx gy debiased)
  = Ok (inner x y / (sqrt (inner x x) * sqrt (inner y y))).
Proof.
  intros E n inner. rewrite !gram_linear_eval. cbn [bind].
  pose proof (gram_linear_symmetric x) as Sx.
  pose proof (gram_linear_symmetric y) as Sy.
  destruct (center_gram_close _ debiased (proj1 Sx) (symmetric_close _ Sx))
    as [cx [Hx [Hx0 [Hx1 Ix]]]].
  destruct (center_gram_close _ debiased (proj1 Sy) (symmetric_close _ Sy))
    as [cy [Hy [Hy0 [Hy1 Iy]]]].
  cbn [shape0 shape1 item] in Hx0, Hx1, Ix, Hy0, Hy1, Iy.
  fold n in Hx0, Hx1, Ix. rewrite <- E in Hy0, Hy1, Iy. fold n in Hy0, Hy1, Iy.
  rewrite (cka_centered _ _ cx cy debiased Hx Hy) by lia.
  unfold np.linalg_norm. rewrite Hx0, Hx1, Hy0, Hy1.
  f_equal. unfold inner. f_equal; [|f_equal; f_equal].
  - apply rsum2_ext; intros i j Hi Hj. now rewrite Ix, Iy.
  - apply rsum2_ext; intros i j Hi Hj. now rewrite Ix.
  - apply rsum2_ext; intros i j Hi Hj. now rewrite Iy.
Qed.

(** C1, as stated, fails on float64 numbers: the relative tolerance [1e-8]
    does not hold for all feature matrices.  With one feature and the four
    examples [1e8, 1e8 + 1, 1e8 + 2, 1e8 + 4] against [0, 1, 2, 4] the
    feature-space score is 1 (centring the features is exact) while the
    entries of the Gram matrix, near [1e16], are rounded to even integers
    before they are centred, and [cka] answers 0.7929...; in the debiased
    mode the two scores are 1.0000000000000002 and 0.8819... *)
Lemma linear_cka_float64_counterexample :
  (3 < f64.shape0 f64.far4)%nat
  /\ f64.shape0 f64.near4 = f64.shape0 f64.far4
  /\ f64.feature_space_linear_cka f64.far4 f64.near4 false = Ok 1%float
  /\ f64.cka_of_gram_linear f64.far4 f64.near4 false
     = Ok 0x1.95f6269f04ab5p-1%float
  /\ f64.feature_space_linear_cka f64.far4 f64.near4 true
     = Ok 0x1.0000000000001p+0%float
  /\ f64.cka_of_gram_linear f64.far4 f64.near4 true
     = Ok 0x1.c38aa37c3f68dp-1%float
  /\ ~ f64.equivalent_within f64.tol8 f64.far4 f64.near4 false
  /\ ~ f64.equivalent_within f64.tol8 f64.far4 f64.near4 true.
Proof.
  split; [vm_compute; lia|].
  split; [reflexivity|].
  do 4 (split; [vm_compute; reflexivity|]).
  split; intros (a & b & Ha & Hb & Hc);
    vm_compute in Ha; vm_compute in Hb;
    injection Ha as <-; injection Hb as <-;
    vm_compute in Hc; discriminate.
Qed.

(** C1, amended: in exact arithmetic [feature_space_linear_cka(X, Y, debiased)]
    is [cka(gram_linear(X), gram_linear(Y), debiased)], for feature matrices
    with N > 3 rows each and in both modes. *)
Theorem linear_cka_equivalence (x y : ndarray) (debiased : bool) :
  shape0 x = shape0 y -> (3 < shape0 x)%nat ->
  exists r,
    feature_space_linear_cka x y debiased = Ok r
    /\ (gx <- gram_linear x ;; gy <- gram_linear y ;; cka gx gy debiased) = Ok r.
Proof.
  intros E Hn.
  rewrite (fslc_eval x y debiased E) by (intros _; lia).
  rewrite (cka_gram_linear x y debiased E).
  eexists; split; [reflexivity|]. f_equal.
  unfold fslc_value. destruct debiased; unfold centered.
  - rewrite (unbiased_inner_gram x y E) by lia.
    rewrite (unbiased_inner_gram x x eq_refl) by lia.
    pose proof (unbiased_inner_gram y y eq_refl) as Hy.
    rewrite <- E in Hy. rewrite Hy by lia. reflexivity.
  - rewrite (biased_inner_gram x y E), (biased_inner_gram x x eq_refl).
    pose proof (biased_inner_gram y y eq_refl) as Hy.
    rewrite <- E in Hy. rewrite Hy. reflexivity.
Qed.

Lemma linear_cka_equivalence_witness :
  exists r,
    feature_space_linear_cka ramp4 bend4 true = Ok r
    /\ (gx <- gram_linear ramp4 ;; gy <- gram_linear bend4 ;; cka gx gy true) = Ok r.
Proof.
  apply (linear_cka_equivalence ramp4 bend4 true).
  - reflexivity.
  - cbn. lia.
Defined.

(** * Further properties of the program *)

(** ** Linear Gram matrices are accepted by [center_gram] *)

(** X1: [gram_linear] never raises; its result is N x N and exactly
    symmetric, so [center_gram] accepts it in both modes. *)
Theorem gram_linear_accepted (x : ndarray) (unbiased : bool) :
  exists g c, gram_linear x = Ok g
    /\ shape0 g = shape0 x /\ shape1 g = shape0 x
    /\ symmetric g
    /\ center_gram g unbiased = Ok c
    /\ shape0 c = shape0 x /\ shape1 c = shape0 x.
Proof.
  pose proof (gram_linear_symmetric x) as S.
  destruct (center_gram_close _ unbiased (proj1 S) (symmetric_close _ S))
    as [c [Hc [H0 [H1 _]]]].
  exists (mk2 (shape0 x) (shape0 x) (gram_entry x)), c.
  repeat split; try assumption; try reflexivity.
  - apply gram_linear_eval.
  - cbn [shape0 item]. intros i j _ _. apply gram_entry_sym.
Qed.

Lemma gram_entry_eq (x x' : ndarray) (i j : nat) :
  array_eq x x' -> (i < shape0 x)%nat -> (j < shape0 x)%nat ->
  gram_entry x i j = gram_entry x' i j.
Proof.
  intros [E0 [E1 H]] Hi Hj. unfold gram_entry. rewrite <- E1.
  apply rsum_ext; intros k Hk. now rewrite !H.
Qed.

(** X2: biased centring of the linear Gram matrix is the linear Gram matrix
    of the features with their column means subtracted, as the docstring of
    [center_gram] says of the features induced by the kernel. *)
Theorem center_gram_centers_features (x : ndarray) :
  exists c g,
    (g0 <- gram_linear x ;; center_gram g0 false) = Ok c
    /\ (xc <- np.sub x (np.row (np.mean0 x)) ;; gram_linear xc) = Ok g
    /\ array_eq c g.
Proof.
  pose proof (gram_linear_symmetric x) as S.
  destruct (center_gram_close _ false (proj1 S) (symmetric_close _ S))
    as [c [Hc [H0 [H1 Hitem]]]].
  destruct (sub_mean x) as [xc [Hxc [Hx0 [Hx1 Hx]]]].
  exists c, (mk2 (shape0 xc) (shape0 xc) (gram_entry xc)).
  rewrite gram_linear_eval, Hxc. cbn [bind]. rewrite gram_linear_eval.
  split; [exact Hc|split; [reflexivity|]].
  cbn [shape0 shape1 item] in H0, H1, Hitem.
  unfold array_eq. cbn [shape0 shape1 item].
  split; [lia|split; [lia|]].
  intros i j Hi Hj. rewrite Hitem by lia.
  unfold centered. rewrite centered_biased_gram. symmetry.
  apply gram_entry_eq; [|lia|lia].
  repeat split; try assumption. intros i' j' Hi' Hj'. apply Hx; lia.
Qed.

(** ** [center_gram] on arrays that are not square *)

(** X3: [center_gram] raises a [ValueError] on every array that is not square,
    unless it is a single column. *)
Theorem center_gram_rejects_non_square (gram : ndarray) (unbiased : bool) :
  shape0 gram <> shape1 gram -> shape1 gram <> 1%nat ->
  exists msg, center_gram gram unbiased = Raise (ValueError msg).
Proof.
  intros Hns H1. unfold center_gram, np.allclose, np.bcast_shapes.
  cbn [np.T shape0 shape1].
  unfold np.bcast_ok.
  destruct (Nat.eqb_spec (shape0 gram) (shape1 gram)) as [E|_]; [contradiction|].
  destruct (Nat.eqb_spec (shape1 gram) 1) as [E|_]; [contradiction|].
  destruct (Nat.eqb_spec (shape0 gram) 1) as [E0|N0].
  - cbn [orb andb].
    replace (shape1 gram =? shape0 gram)%nat with false
      by (symmetry; apply Nat.eqb_neq; lia).
    cbn [orb andb bind].
    match goal with |- context [negb ?b] => destruct b end; cbn [negb].
    + assert (Hiop : forall (a : ndarray) (v : ndarray1),
        shape0 a = 1%nat -> shape1 a = len v -> len v <> 1%nat ->
        np.isub a (np.col v) = Raise np.non_broadcastable_output).
      { intros a v Ha Hv Hl. unfold np.isub, np.iop, np.bcast_shapes, np.bcast_ok,
          np.bcast_dim. cbn [np.col shape0 shape1]. rewrite Ha, Hv.
        destruct (len v) as [|[|k]]; [reflexivity|contradiction|].
        cbn [Nat.eqb orb andb]. rewrite ?Nat.eqb_refl. reflexivity. }
      destruct unbiased.
      * rewrite Hiop by (cbn; lia). cbn [bind]. eexists; reflexivity.
      * rewrite Hiop by (cbn; lia). cbn [bind]. eexists; reflexivity.
    + eexists; reflexivity.
  - cbn [orb andb bind]. eexists; reflexivity.
Qed.

Lemma center_gram_rejects_non_square_witness :
  exists msg, center_gram wide2 true = Raise (ValueError msg).
Proof.
  apply (center_gram_rejects_non_square wide2 true); cbn; lia.
Defined.

(** ** Two examples only *)

(** X4: debiased [feature_space_linear_cka] on feature matrices with exactly
    two rows raises [ZeroDivisionError]: python evaluates [n / (n - 2.)]. *)
Theorem debiased_two_rows_raises (x y : ndarray) :
  shape0 x = 2%nat -> shape0 y = 2%nat ->
  feature_space_linear_cka x y true
  = Raise (ZeroDivisionError "float division by zero")
  /\ exists r, feature_space_linear_cka x y false = Ok r.
Proof.
  intros Ex Ey. split.
  - destruct (sub_mean x) as [xc [Hxc [Hx0 _]]].
    destruct (sub_mean y) as [yc [Hyc [Hy0 _]]].
    unfold feature_space_linear_cka. rewrite Hxc, Hyc. cbn [bind].
    rewrite (dot_T xc yc) by lia.
    rewrite (dot_T xc xc eq_refl), (dot_T yc yc eq_refl). cbn [bind].
    unfold _debiased_dot_product_similarity_helper.
    rewrite Hx0, Ex. reflexivity.
  - eexists. apply fslc_eval; [lia|discriminate].
Qed.

Lemma debiased_two_rows_raises_witness :
  feature_space_linear_cka pair2 swap2 true
  = Raise (ZeroDivisionError "float division by zero")
  /\ exists r, feature_space_linear_cka pair2 swap2 false = Ok r.
Proof.
  apply (debiased_two_rows_raises pair2 swap2); reflexivity.
Defined.

(** ** What the centred matrix looks like *)

Lemma centered_biased_colsum (n : nat) (g : nat -> nat -> R) (j : nat) :
  (0 < n)%nat -> rsum n (fun i => centered_biased n g i j) = 0.
Proof.
  intros Hn. pose proof (INR_pos_nonzero n Hn) as Hn0.
  unfold centered_biased.
  rewrite !rsum_minus, rsum_const.
  assert (Hg : rsum n (fun i => g i j) = INR n * biased_means n g j)
    by (unfold biased_means; field; exact Hn0).
  assert (Hs : rsum n (biased_shift n g) = rsum n (biased_means n g) / 2).
  { unfold biased_shift. rewrite rsum_minus, rsum_const. field. exact Hn0. }
  rewrite Hg, Hs. unfold biased_shift. field. exact Hn0.
Qed.

Lemma centered_sym (unbiased : bool) (n : nat) (g : nat -> nat -> R) (i j : nat) :
  (forall i j, (i < n)%nat -> (j < n)%nat -> g i j = g j i) ->
  (i < n)%nat -> (j < n)%nat ->
  centered unbiased n g i j = centered unbiased n g j i.
Proof.
  intros Hg Hi Hj.
  destruct unbiased; unfold centered, centered_unbiased, centered_biased, zero_diag;
    rewrite (Hg i j Hi Hj).
  - rewrite (Nat.eqb_sym j i). destruct (i =? j)%nat; [reflexivity|ring].
  - ring.
Qed.

(** X5: in the biased mode the matrix [center_gram] returns has columns that
    sum to zero, and rows that sum to zero when the input is symmetric: the
    "centered columns and rows" of the docstring. *)
Theorem center_gram_biased_sums (gram : ndarray) :
  symmetric gram -> (0 < shape0 gram)%nat ->
  exists c, center_gram gram false = Ok c
    /\ (forall j, (j < shape0 gram)%nat ->
          rsum (shape0 gram) (fun i => item c i j) = 0)
    /\ (forall i, (i < shape0 gram)%nat ->
          rsum (shape0 gram) (fun j => item c i j) = 0).
Proof.
  intros Hsym Hn.
  destruct (center_gram_close gram false (proj1 Hsym) (symmetric_close _ Hsym))
    as [c [Hc [H0 [H1 Hitem]]]].
  exists c. split; [exact Hc|]. split.
  - intros j Hj.
    rewrite (rsum_ext _ _ (fun i => centered_biased (shape0 gram) (item gram) i j))
      by (intros i Hi; now rewrite Hitem).
    now apply centered_biased_colsum.
  - intros i Hi.
    rewrite (rsum_ext _ _ (fun j => centered_biased (shape0 gram) (item gram) j i)).
    + now apply centered_biased_colsum.
    + intros j Hj. rewrite Hitem by assumption.
      apply (centered_sym false); [exact (proj2 Hsym)|assumption|assumption].
Qed.

Lemma center_gram_biased_sums_witness :
  exists c, center_gram band3 false = Ok c
    /\ (forall j, (j < 3)%nat -> rsum 3 (fun i => item c i j) = 0)
    /\ (forall i, (i < 3)%nat -> rsum 3 (fun j => item c i j) = 0).
Proof.
  apply (center_gram_biased_sums band3).
  - exact symmetric_band3.
  - cbn. lia.
Defined.

(** X6: in the unbiased mode, on a symmetric N x N input with N >= 3, the
    matrix returned has a zero diagonal and rows and columns that sum to
    zero. *)
Theorem center_gram_unbiased_sums (gram : ndarray) :
  symmetric gram -> (3 <= shape0 gram)%nat ->
  exists c, center_gram gram true = Ok c
    /\ (forall i, (i < shape0 gram)%nat -> item c i i = 0)
    /\ (forall j, (j < shape0 gram)%nat ->
          rsum (shape0 gram) (fun i => item c i j) = 0)
    /\ (forall i, (i < shape0 gram)%nat ->
          rsum (shape0 gram) (fun j => item c i j) = 0).
Proof.
  intros Hsym Hn.
  destruct (center_gram_close gram true (proj1 Hsym) (symmetric_close _ Hsym))
    as [c [Hc [H0 [H1 Hitem]]]].
  exists c. split; [exact Hc|]. split; [|split].
  - intros i Hi. rewrite Hitem by assumption.
    unfold centered, centered_unbiased. now rewrite Nat.eqb_refl.
  - intros j Hj.
    rewrite (rsum_ext _ _ (fun i => centered_unbiased (shape0 gram) (item gram) i j))
      by (intros i Hi; now rewrite Hitem).
    apply colsum_centered_unbiased; [exact Hn|exact (proj2 Hsym)|exact Hj].
  - intros i Hi.
    rewrite (rsum_ext _ _ (fun j => centered_unbiased (shape0 gram) (item gram) i j))
      by (intros j Hj; now rewrite Hitem).
    apply rowsum_centered_unbiased; [exact Hn|exact (proj2 Hsym)|exact Hi].
Qed.

Lemma center_gram_unbiased_sums_witness :
  exists c, center_gram sym4 true = Ok c
    /\ (forall i, (i < 4)%nat -> item c i i = 0)
    /\ (forall j, (j < 4)%nat -> rsum 4 (fun i => item c i j) = 0)
    /\ (forall i, (i < 4)%nat -> rsum 4 (fun j => item c i j) = 0).
Proof.
  apply (center_gram_unbiased_sums sym4).
  - exact symmetric_sym4.
  - cbn. lia.
Defined.

(** The centred entries read the table inside its bounds only. *)
Lemma centered_ext (unbiased : bool) (n : nat) (t t' : nat -> nat -> R) (i j : nat) :
  (forall i j, (i < n)%nat -> (j < n)%nat -> t i j = t' i j) ->
  (i < n)%nat -> (j < n)%nat ->
  centered unbiased n t i j = centered unbiased n t' i j.
Proof.
  intros H Hi Hj. destruct unbiased; unfold centered.
  - assert (Hm : forall j, (j < n)%nat -> unbiased_means n t j = unbiased_means n t' j).
    { intros k Hk. unfold unbiased_means. f_equal.
      apply rsum_ext; intros l Hl. unfold zero_diag.
      destruct (l =? k)%nat; [reflexivity|now apply H]. }
    assert (Hs : forall j, (j < n)%nat -> unbiased_shift n t j = unbiased_shift n t' j).
    { intros k Hk. unfold unbiased_shift. rewrite (Hm k Hk).
      now rewrite (rsum_ext n _ _ Hm). }
    unfold centered_unbiased, zero_diag.
    destruct (i =? j)%nat; [reflexivity|].
    now rewrite (H i j Hi Hj), (Hs i Hi), (Hs j Hj).
  - assert (Hm : forall j, (j < n)%nat -> biased_means n t j = biased_means n t' j).
    { intros k Hk. unfold biased_means. f_equal.
      apply rsum_ext; intros l Hl. now apply H. }
    assert (Hs : forall j, (j < n)%nat -> biased_shift n t j = biased_shift n t' j).
    { intros k Hk. unfold biased_shift. rewrite (Hm k Hk).
      now rewrite (rsum_ext n _ _ Hm). }
    unfold centered_biased. now rewrite (H i j Hi Hj), (Hs i Hi), (Hs j Hj).
Qed.

Lemma centered_biased_idem (n : nat) (g : nat -> nat -> R) (i j : nat) :
  (0 < n)%nat ->
  centered_biased n (centered_biased n g) i j = centered_biased n g i j.
Proof.
  intros Hn.
  assert (Hm : forall k, biased_means n (centered_biased n g) k = 0).
  { intros k. unfold biased_means at 1.
    rewrite (centered_biased_colsum n g k Hn). unfold Rdiv. ring. }
  unfold centered_biased at 1. unfold biased_shift.
  rewrite (rsum_ext n _ (fun _ => 0)) by (intros; apply Hm).
  rewrite rsum_zero, !Hm. unfold Rdiv. ring.
Qed.

Lemma centered_unbiased_idem (n : nat) (t : nat -> nat -> R) (i j : nat) :
  (3 <= n)%nat ->
  (forall i j, (i < n)%nat -> (j < n)%nat -> t i j = t j i) ->
  (i < n)%nat -> (j < n)%nat ->
  centered_unbiased n (centered_unbiased n t) i j = centered_unbiased n t i j.
Proof.
  intros Hn St Hi Hj.
  assert (Hz : forall k l, zero_diag (centered_unbiased n t) k l
                           = centered_unbiased n t k l).
  { intros k l. unfold zero_diag, centered_unbiased.
    destruct (k =? l)%nat; reflexivity. }
  assert (Hm : forall k, (k < n)%nat ->
                 unbiased_means n (centered_unbiased n t) k = 0).
  { intros k Hk. unfold unbiased_means.
    rewrite (rsum_ext n _ (fun l => centered_unbiased n t l k))
      by (intros; apply Hz).
    rewrite (colsum_centered_unbiased n Hn t k St Hk). unfold Rdiv. ring. }
  unfold centered_unbiased at 1.
  destruct (i =? j)%nat eqn:Eij.
  - unfold centered_unbiased. now rewrite Eij.
  - rewrite Hz. unfold unbiased_shift.
    rewrite (rsum_ext n _ (fun _ => 0)) by (intros; now apply Hm).
    rewrite rsum_zero, !Hm by assumption. unfold Rdiv. ring.
Qed.

(** X7: [center_gram] is idempotent: the centred matrix of a symmetric input
    passes the symmetry test again, and centring it once more in the same
    mode changes nothing. *)
Theorem center_gram_idempotent (gram : ndarray) (unbiased : bool) :
  symmetric gram -> (0 < shape0 gram)%nat ->
  (unbiased = true -> (3 <= shape0 gram)%nat) ->
  exists c c', center_gram gram unbiased = Ok c
    /\ center_gram c unbiased = Ok c'
    /\ array_eq c' c.
Proof.
  intros Hsym Hn Hu.
  destruct (center_gram_close gram unbiased (proj1 Hsym) (symmetric_close _ Hsym))
    as [c [Hc [H0 [H1 Hitem]]]].
  assert (Sc : symmetric c).
  { split; [unfold square; lia|].
    intros i j Hi Hj. rewrite H0 in Hi, Hj. rewrite !Hitem by assumption.
    apply centered_sym; [exact (proj2 Hsym)|assumption|assumption]. }
  destruct (center_gram_close c unbiased (proj1 Sc) (symmetric_close _ Sc))
    as [c' [Hc' [H0' [H1' Hitem']]]].
  exists c, c'. split; [exact Hc|split; [exact Hc'|]].
  unfold array_eq. split; [lia|split; [lia|]].
  intros i j Hi Hj. rewrite Hitem' by lia. rewrite H0.
  rewrite (centered_ext unbiased (shape0 gram) (item c)
             (centered unbiased (shape0 gram) (item gram))) by (try exact Hitem; lia).
  rewrite Hitem by lia.
  destruct unbiased; unfold centered.
  - apply centered_unbiased_idem; [now apply Hu|exact (proj2 Hsym)|lia|lia].
  - now apply centered_biased_idem.
Qed.

Lemma center_gram_idempotent_witness :
  exists c c', center_gram sym4 true = Ok c
    /\ center_gram c true = Ok c'
    /\ array_eq c' c.
Proof.
  apply (center_gram_idempotent sym4 true).
  - exact symmetric_sym4.
  - cbn. lia.
  - intros _. cbn. lia.
Defined.

Lemma centered_unbiased_three (t : nat -> nat -> R) (i j : nat) :
  (forall i j, (i < 3)%nat -> (j < 3)%nat -> t i j = t j i) ->
  (i < 3)%nat -> (j < 3)%nat -> centered_unbiased 3 t i j = 0.
Proof.
  intros St Hi Hj.
  pose proof (St 1 0 ltac:(lia) ltac:(lia))%nat as H10.
  pose proof (St 2 0 ltac:(lia) ltac:(lia))%nat as H20.
  pose proof (St 2 1 ltac:(lia) ltac:(lia))%nat as H21.
  assert (Hc : (i = 0 \/ i = 1 \/ i = 2)%nat) by lia.
  assert (Hd : (j = 0 \/ j = 1 \/ j = 2)%nat) by lia.
  destruct Hc as [-> | [-> | ->]], Hd as [-> | [-> | ->]];
    unfold centered_unbiased, unbiased_shift, unbiased_means, zero_diag;
    cbn [rsum Nat.eqb]; simpl INR; rewrite ?H10, ?H20, ?H21; field.
Qed.

(** X8: with exactly three examples the unbiased centred matrix is the zero
    matrix whatever the symmetric input, so its Frobenius norm, the
    normalisation of debiased [cka], is zero. *)
Theorem center_gram_unbiased_three (gram : ndarray) :
  symmetric gram -> shape0 gram = 3%nat ->
  exists c, center_gram gram true = Ok c
    /\ (forall i j, (i < 3)%nat -> (j < 3)%nat -> item c i j = 0)
    /\ np.linalg_norm c = 0.
Proof.
  intros Hsym E3.
  destruct (center_gram_close gram true (proj1 Hsym) (symmetric_close _ Hsym))
    as [c [Hc [H0 [H1 Hitem]]]].
  rewrite E3 in H0, H1, Hitem.
  assert (Hz : forall i j, (i < 3)%nat -> (j < 3)%nat -> item c i j = 0).
  { intros i j Hi Hj. rewrite Hitem by assumption.
    apply centered_unbiased_three; try assumption.
    intros a b Ha Hb. apply (proj2 Hsym); rewrite E3; assumption. }
  exists c. split; [exact Hc|split; [exact Hz|]].
  unfold np.linalg_norm. rewrite H0, H1.
  rewrite (rsum2_ext 3 3 _ (fun _ _ => 0))
    by (intros i j Hi Hj; rewrite (Hz i j Hi Hj); ring).
  unfold rsum2. cbn [rsum].
  replace (0 + (0 + 0 + 0 + 0) + (0 + 0 + 0 + 0) + (0 + 0 + 0 + 0)) with 0 by ring.
  apply sqrt_0.
Qed.

Lemma center_gram_unbiased_three_witness :
  exists c, center_gram band3 true = Ok c
    /\ (forall i j, (i < 3)%nat -> (j < 3)%nat -> item c i j = 0)
    /\ np.linalg_norm c = 0.
Proof.
  apply (center_gram_unbiased_three band3).
  - exact symmetric_band3.
  - reflexivity.
Defined.

(** ** The range of the scores *)

Lemma rsum2_plus (n m : nat) (f g : nat -> nat -> R) :
  rsum2 n m (fun i j => f i j + g i j) = rsum2 n m f + rsum2 n m g.
Proof.
  unfold rsum2. rewrite <- rsum_plus. apply rsum_ext; intros i _.
  apply rsum_plus.
Qed.

Lemma rsum2_scal (n m : nat) (c : R) (f : nat -> nat -> R) :
  rsum2 n m (fun i j => c * f i j) = c * rsum2 n m f.
Proof.
  unfold rsum2. rewrite <- rsum_scal_l. apply rsum_ext; intros i _.
  apply rsum_scal_l.
Qed.

Lemma rsum2_quadratic (n m : nat) (a b : nat -> nat -> R) (l u : R) :
  0 <= l * l * rsum2 n m (fun i j => a i j * a i j)
       + 2 * (l * u) * rsum2 n m (fun i j => a i j * b i j)
       + u * u * rsum2 n m (fun i j => b i j * b i j).
Proof.
  rewrite <- !rsum2_scal, <- !rsum2_plus.
  apply rsum2_nonneg; intros i j _ _. cbv beta.
  replace (l * l * (a i j * a i j) + 2 * (l * u) * (a i j * b i j)
           + u * u * (b i j * b i j))
    with (Rsqr (l * a i j + u * b i j)) by (unfold Rsqr; ring).
  apply Rle_0_sqr.
Qed.

Lemma cauchy_schwarz2 (n m : nat) (a b : nat -> nat -> R) :
  rsum2 n m (fun i j => a i j * b i j) * rsum2 n m (fun i j => a i j * b i j)
  <= rsum2 n m (fun i j => a i j * a i j) * rsum2 n m (fun i j => b i j * b i j).
Proof.
  set (A := rsum2 n m (fun i j => a i j * a i j)).
  set (B := rsum2 n m (fun i j => b i j * b i j)).
  set (P := rsum2 n m (fun i j => a i j * b i j)).
  assert (HA : 0 <= A) by (apply rsum2_nonneg; intros; nra).
  assert (HB : 0 <= B) by (apply rsum2_nonneg; intros; nra).
  assert (Q : forall l u, 0 <= l * l * A + 2 * (l * u) * P + u * u * B)
    by (intros l u; apply rsum2_quadratic).
  clearbody A B P.
  destruct (Rle_lt_or_eq_dec 0 B HB) as [Bpos|Bz].
  - pose proof (Q B (- P)) as Q1.
    assert (0 <= B * (A * B - P * P)) by nra. nra.
  - subst B. destruct (Req_dec P 0) as [->|Pn]; [lra|].
    pose proof (Q 1 (- (A + 1) / P)) as Q1.
    replace (1 * 1 * A + 2 * (1 * (- (A + 1) / P)) * P
             + - (A + 1) / P * (- (A + 1) / P) * 0)
      with (A - 2 * (A + 1)) in Q1 by (field; exact Pn).
    lra.
Qed.

(** A quotient [p / (sqrt a * sqrt b)] with [p^2 <= a b] lies in [-1, 1]. *)
Lemma normalised_bounded (p a b : R) :
  0 <= a -> 0 <= b -> sqrt a <> 0 -> sqrt b <> 0 -> p * p <= a * b ->
  -1 <= p / (sqrt a * sqrt b) <= 1.
Proof.
  intros Ha Hb Na Nb Hp.
  pose proof (sqrt_pos a) as Sa. pose proof (sqrt_pos b) as Sb.
  pose proof (sqrt_sqrt a Ha) as Ea. pose proof (sqrt_sqrt b Hb) as Eb.
  set (d := sqrt a * sqrt b).
  assert (Hd : 0 < d) by (unfold d; nra).
  assert (Hdd : d * d = a * b) by (unfold d; nra).
  assert (Hpd : - d <= p <= d) by nra.
  assert (Hi : 0 < / d) by now apply Rinv_0_lt_compat.
  assert (E : p / d * d = p) by (field; lra).
  split; nra.
Qed.

(** X9: by the Cauchy-Schwarz inequality [cka] lies between -1 and 1, in both
    modes, whenever the two centred matrices have a nonzero norm, for N >= 3
    in the debiased mode. *)
Theorem cka_bounded (gram_x gram_y cx cy : ndarray) (debiased : bool) :
  square gram_x -> square gram_y -> shape0 gram_x = shape0 gram_y ->
  (debiased = true -> (3 <= shape0 gram_x)%nat) ->
  center_gram gram_x debiased = Ok cx -> center_gram gram_y debiased = Ok cy ->
  np.linalg_norm cx <> 0 -> np.linalg_norm cy <> 0 ->
  exists r, cka gram_x gram_y debiased = Ok r /\ -1 <= r <= 1.
Proof.
  intros Qx Qy En _ Hx Hy Nx Ny.
  destruct (center_gram_ok_inv _ _ _ Qx Hx) as [_ [Hx0 Hx1]].
  destruct (center_gram_ok_inv _ _ _ Qy Hy) as [_ [Hy0 Hy1]].
  assert (E0 : shape0 cx = shape0 cy) by lia.
  assert (E1 : shape1 cx = shape1 cy) by lia.
  rewrite (cka_centered _ _ cx cy debiased Hx Hy E0 E1).
  eexists; split; [reflexivity|].
  unfold np.linalg_norm in *. rewrite <- E0, <- E1 in *.
  apply normalised_bounded; try assumption.
  - apply rsum2_nonneg; intros; nra.
  - apply rsum2_nonneg; intros; nra.
  - apply cauchy_schwarz2.
Qed.

Lemma identity3_centered :
  exists c, center_gram identity3 false = Ok c /\ np.linalg_norm c <> 0.
Proof.
  apply (centered_norm_nonzero identity3 false 0 0);
    [exact symmetric_identity3|cbn; lia|cbn; lia|].
  unfold centered, centered_biased, biased_shift, biased_means.
  cbn [identity3 array shape0 item List.length nth rsum]. simpl INR. lra.
Qed.

Lemma band3_centered :
  exists c, center_gram band3 false = Ok c /\ np.linalg_norm c <> 0.
Proof.
  apply (centered_norm_nonzero band3 false 0 0);
    [exact symmetric_band3|cbn; lia|cbn; lia|].
  unfold centered, centered_biased, biased_shift, biased_means.
  cbn [band3 array shape0 item List.length nth rsum]. simpl INR. lra.
Qed.

Lemma cka_bounded_witness :
  (exists r, cka identity3 band3 false = Ok r /\ -1 <= r <= 1)
  /\ (exists r, cka sym4 path4 true = Ok r /\ -1 <= r <= 1).
Proof.
  split.
  - destruct identity3_centered as [cx [Hx Nx]].
    destruct band3_centered as [cy [Hy Ny]].
    apply (cka_bounded identity3 band3 cx cy false); try assumption;
      [reflexivity|reflexivity|reflexivity|intros H; discriminate H].
  - destruct sym4_centered as [cx [Hx Nx]].
    destruct path4_centered as [cy [Hy Ny]].
    apply (cka_bounded sym4 path4 cx cy true); try assumption;
      [reflexivity|reflexivity|reflexivity|intros _; cbn; lia].
Defined.

Lemma frob2_xT_y_positive (x : ndarray) (i a : nat) :
  (i < shape0 x)%nat -> (a < shape1 x)%nat -> item x i a <> 0 ->
  0 < frob2 (shape1 x) (shape1 x) (xT_y x x).
Proof.
  intros Hi Ha Hne.
  assert (Hd : 0 < xT_y x x a a).
  { unfold xT_y.
    apply Rlt_le_trans with (item x i a * item x i a); [nra|].
    apply (rsum_ge_term (shape0 x) i (fun l => item x l a * item x l a));
      [intros; nra|exact Hi]. }
  apply Rlt_le_trans with (xT_y x x a a * xT_y x x a a); [nra|].
  unfold frob2, rsum2.
  apply Rle_trans with (rsum (shape1 x) (fun b => xT_y x x a b * xT_y x x a b)).
  - apply (rsum_ge_term (shape1 x) a (fun b => xT_y x x a b * xT_y x x a b));
      [intros; nra|exact Ha].
  - apply (rsum_ge_term (shape1 x) a
             (fun a' => rsum (shape1 x) (fun b => xT_y x x a' b * xT_y x x a' b)));
      [|exact Ha].
    intros; apply rsum_nonneg; intros; nra.
Qed.

(** X10: biased [feature_space_linear_cka] lies between 0 and 1 when each
    feature matrix has a column that is not constant. *)
Theorem feature_space_linear_cka_range (x y : ndarray) (i a k b : nat) :
  shape0 x = shape0 y ->
  (i < shape0 x)%nat -> (a < shape1 x)%nat -> item (column_centered x) i a <> 0 ->
  (k < shape0 y)%nat -> (b < shape1 y)%nat -> item (column_centered y) k b <> 0 ->
  exists r, feature_space_linear_cka x y false = Ok r /\ 0 <= r <= 1.
Proof.
  intros E Hi Ha Hx Hk Hb Hy.
  rewrite (fslc_eval x y false E) by discriminate.
  eexists; split; [reflexivity|]. unfold fslc_value. cbv zeta.
  set (xc := column_centered x). set (yc := column_centered y).
  assert (Pxx : 0 < frob2 (shape1 x) (shape1 x) (xT_y xc xc))
    by (apply (frob2_xT_y_positive xc i a); assumption).
  assert (Pyy : 0 < frob2 (shape1 y) (shape1 y) (xT_y yc yc))
    by (apply (frob2_xT_y_positive yc k b); assumption).
  pose proof (gram_frobenius xc yc) as Fxy.
  pose proof (gram_frobenius xc xc) as Fxx.
  pose proof (gram_frobenius yc yc) as Fyy.
  change (shape0 xc) with (shape0 x) in Fxy, Fxx.
  change (shape0 yc) with (shape0 y) in Fyy. rewrite <- E in Fyy.
  change (shape1 xc) with (shape1 x) in Fxy, Fxx.
  change (shape1 yc) with (shape1 y) in Fxy, Fyy.
  pose proof (cauchy_schwarz2 (shape0 x) (shape0 x) (gram_entry xc) (gram_entry yc))
    as CS.
  rewrite Fxy, Fxx, Fyy in CS.
  pose proof (frob2_nonneg (shape1 x) (shape1 y) (xT_y xc yc)) as Pxy.
  assert (Sx : sqrt (frob2 (shape1 x) (shape1 x) (xT_y xc xc)) <> 0)
    by (pose proof (sqrt_lt_R0 _ Pxx); lra).
  assert (Sy : sqrt (frob2 (shape1 y) (shape1 y) (xT_y yc yc)) <> 0)
    by (pose proof (sqrt_lt_R0 _ Pyy); lra).
  destruct (normalised_bounded _ _ _ (Rlt_le _ _ Pxx) (Rlt_le _ _ Pyy) Sx Sy CS)
    as [_ Hle].
  split; [|exact Hle].
  apply Rmult_le_pos; [exact Pxy|].
  apply Rlt_le, Rinv_0_lt_compat.
  pose proof (sqrt_lt_R0 _ Pxx). pose proof (sqrt_lt_R0 _ Pyy). nra.
Qed.

Lemma feature_space_linear_cka_range_witness :
  exists r, feature_space_linear_cka line3 kink3 false = Ok r /\ 0 <= r <= 1.
Proof.
  apply (feature_space_linear_cka_range line3 kink3 0 0 0 0);
    try reflexivity; try (cbn; lia);
    cbn [line3 kink3 column_centered array shape0 shape1 item List.length nth rsum];
    simpl INR; lra.
Defined.

(** ** Invariances of feature-space linear CKA *)















(** ** The RBF Gram matrix *)

Lemma rbf_g_sym (x : ndarray) (i j : nat) : rbf_spec.g x i j = rbf_spec.g x j i.
Proof. unfold rbf_spec.g. apply rsum_ext; intros; ring. Qed.

(** The dot-product identity gives the squared Euclidean distance. *)
Lemma sq_distance_euclid (x : ndarray) (i j : nat) :
  rbf_spec.sq_distance x i j
  = rsum (shape1 x) (fun k => (item x i k - item x j k) * (item x i k - item x j k)).
Proof.
  unfold rbf_spec.sq_distance, rbf_spec.g.
  rewrite <- rsum_scal_l, <- rsum_minus, <- rsum_plus.
  apply rsum_ext; intros; ring.
Qed.

Lemma sq_distance_nonneg (x : ndarray) (i j : nat) : 0 <= rbf_spec.sq_distance x i j.
Proof.
  rewrite sq_distance_euclid. apply rsum_nonneg; intros k _. cbv beta.
  apply (Rle_0_sqr (item x i k - item x j k)).
Qed.

Lemma sq_distance_sym (x : ndarray) (i j : nat) :
  rbf_spec.sq_distance x i j = rbf_spec.sq_distance x j i.
Proof. unfold rbf_spec.sq_distance. rewrite (rbf_g_sym x i j). ring. Qed.

Lemma two_points_bandwidth : rbf_spec.bandwidth two_points 1 = / 2.
Proof.
  assert (Hd : forall i j, rbf_spec.sq_distance two_points i j
                 = item two_points i 0 * item two_points i 0
                   - 2 * (item two_points i 0 * item two_points j 0)
                   + item two_points j 0 * item two_points j 0).
  { intros i j. unfold rbf_spec.sq_distance, rbf_spec.g.
    cbn [two_points array shape1 List.length List.hd rsum]. ring. }
  assert (Hl : rbf_spec.all_entries (shape0 two_points)
                 (rbf_spec.sq_distance two_points) = [0; 1; 1; 0]).
  { unfold rbf_spec.all_entries.
    cbn [shape0 two_points array List.length seq flat_map List.map app].
    rewrite !Hd. cbn [two_points array item nth].
    f_equal; [ring|f_equal; [ring|f_equal; [ring|f_equal; ring]]]. }
  unfold rbf_spec.bandwidth, np.median_list. rewrite Hl.
  cbn [np.sort np.insert].
  rewrite (Rleb_false 1 0) by lra. cbn [np.insert].
  rewrite (Rleb_false 1 0), (Rleb_true 1 1) by lra. cbn [np.insert].
  rewrite (Rleb_true 0 0) by lra.
  simpl. lra.
Qed.

(** X14: when the bandwidth [threshold^2 * median] is positive, [gram_rbf]
    returns a symmetric N x N matrix with ones on the diagonal and entries in
    (0, 1], the squared distances being sums of squared differences; so
    [center_gram] accepts it in both modes. *)
Theorem gram_rbf_kernel_matrix (x : ndarray) (threshold : R) (unbiased : bool) :
  0 < rbf_spec.bandwidth x threshold ->
  exists k c, gram_rbf x threshold = Ok k
    /\ symmetric k /\ shape0 k = shape0 x
    /\ (forall i, (i < shape0 x)%nat -> item k i i = 1)
    /\ (forall i j, (i < shape0 x)%nat -> (j < shape0 x)%nat ->
          item k i j
          = exp (- rsum (shape1 x)
                     (fun l => (item x i l - item x j l) * (item x i l - item x j l))
                 / (2 * rbf_spec.bandwidth x threshold))
          /\ 0 < item k i j <= 1)
    /\ center_gram k unbiased = Ok c.
Proof.
  intros Hb.
  destruct (gram_rbf_eval x threshold) as [k [Hk [H0 [H1 Hitem]]]].
  cbn [shape0 shape1 item] in H0, H1, Hitem.
  assert (Sk : symmetric k).
  { split; [unfold square; lia|].
    intros i j Hi Hj. rewrite !Hitem by lia.
    unfold rbf_spec.kernel. now rewrite (sq_distance_sym x i j). }
  destruct (center_gram_close k unbiased (proj1 Sk) (symmetric_close _ Sk))
    as [c [Hc _]].
  exists k, c. split; [exact Hk|]. split; [exact Sk|]. split; [exact H0|].
  split; [|split; [|exact Hc]].
  - intros i Hi. rewrite Hitem by lia. unfold rbf_spec.kernel.
    replace (rbf_spec.sq_distance x i i) with 0
      by (unfold rbf_spec.sq_distance; ring).
    rewrite <- exp_0. f_equal. unfold Rdiv. ring.
  - intros i j Hi Hj. rewrite Hitem by lia. unfold rbf_spec.kernel.
    rewrite <- sq_distance_euclid. split; [reflexivity|].
    split; [apply exp_pos|].
    pose proof (sq_distance_nonneg x i j) as Hd.
    set (e := - rbf_spec.sq_distance x i j / (2 * rbf_spec.bandwidth x threshold)).
    assert (He : e <= 0).
    { unfold e, Rdiv.
      assert (0 < / (2 * rbf_spec.bandwidth x threshold))
        by (apply Rinv_0_lt_compat; lra).
      nra. }
    destruct (Rle_lt_or_eq_dec _ _ He) as [Hlt|Heq].
    + rewrite <- exp_0. left. now apply exp_increasing.
    + rewrite Heq, exp_0. lra.
Qed.

Lemma gram_rbf_kernel_matrix_witness :
  exists k c, gram_rbf two_points 1 = Ok k
    /\ symmetric k /\ shape0 k = 2%nat
    /\ (forall i, (i < 2)%nat -> item k i i = 1)
    /\ (forall i j, (i < 2)%nat -> (j < 2)%nat ->
          item k i j
          = exp (- rsum 1
                     (fun l => (item two_points i l - item two_points j l)
                               * (item two_points i l - item two_points j l))
                 / (2 * rbf_spec.bandwidth two_points 1))
          /\ 0 < item k i j <= 1)
    /\ center_gram k true = Ok c.
Proof.
  apply (gram_rbf_kernel_matrix two_points 1 true).
  rewrite two_points_bandwidth. lra.
Defined.

(** ** Scaling the inputs *)

Lemma scaled_quotient (s p d e : R) :
  s <> 0 -> s * p / (s * d * e) = p / (d * e).
Proof.
  intros Hs. unfold Rdiv. rewrite !Rinv_mult.
  transitivity (s * / s * (p * (/ d * / e))); [ring|].
  rewrite Rinv_r by exact Hs. ring.
Qed.





Lemma Rleb_scale (s x y : R) : 0 < s -> Rleb (s * x) (s * y) = Rleb x y.
Proof.
  intros Hs. destruct (Rle_lt_dec x y) as [H|H].
  - rewrite (Rleb_true x y H). apply Rleb_true. nra.
  - rewrite (Rleb_false x y H). apply Rleb_false. nra.
Qed.

Lemma insert_scale (s x : R) (l : list R) :
  0 < s ->
  np.insert (s * x) (List.map (Rmult s) l) = List.map (Rmult s) (np.insert x l).
Proof.
  intros Hs. induction l as [|y l IH]; [reflexivity|].
  cbn [List.map np.insert]. rewrite (Rleb_scale s x y Hs).
  destruct (Rleb x y); cbn [List.map]; [reflexivity|now rewrite IH].
Qed.

Lemma sort_scale (s : R) (l : list R) :
  0 < s -> np.sort (List.map (Rmult s) l) = List.map (Rmult s) (np.sort l).
Proof.
  intros Hs. induction l as [|y l IH]; [reflexivity|].
  cbn [List.map np.sort]. now rewrite IH, insert_scale.
Qed.

(** The median is homogeneous for positive factors. *)
Lemma median_scale (s : R) (l : list R) :
  0 < s -> np.median_list (List.map (Rmult s) l) = s * np.median_list l.
Proof.
  intros Hs. unfold np.median_list. rewrite sort_scale by exact Hs.
  rewrite length_map.
  assert (Hn : forall k t, nth k (List.map (Rmult s) t) 0 = s * nth k t 0).
  { intros k t. rewrite <- (Rmult_0_r s) at 1. apply map_nth. }
  rewrite !Hn. destruct (Nat.even _); unfold Rdiv; ring.
Qed.

Lemma all_entries_scale (n : nat) (s : R) (f : nat -> nat -> R) :
  rbf_spec.all_entries n (fun i j => s * f i j)
  = List.map (Rmult s) (rbf_spec.all_entries n f).
Proof.
  unfold rbf_spec.all_entries. rewrite !flat_map_concat_map, concat_map, map_map.
  f_equal. apply map_ext; intros i. now rewrite map_map.
Qed.

Lemma sq_distance_scale (x : ndarray) (c : R) (i j : nat) :
  rbf_spec.sq_distance (mul_scalar x c) i j = c * c * rbf_spec.sq_distance x i j.
Proof.
  rewrite !sq_distance_euclid. cbn [mul_scalar np.map shape1 item].
  rewrite <- rsum_scal_l. apply rsum_ext; intros; ring.
Qed.

Lemma bandwidth_scale (x : ndarray) (c threshold : R) :
  c <> 0 ->
  rbf_spec.bandwidth (mul_scalar x c) threshold
  = c * c * rbf_spec.bandwidth x threshold.
Proof.
  intros Hc. unfold rbf_spec.bandwidth.
  change (shape0 (mul_scalar x c)) with (shape0 x).
  rewrite (all_entries_ext (shape0 x) (rbf_spec.sq_distance (mul_scalar x c))
             (fun i j => c * c * rbf_spec.sq_distance x i j))
    by (intros; apply sq_distance_scale).
  rewrite all_entries_scale, median_scale by nra. ring.
Qed.

(** X16: the median heuristic makes the RBF Gram matrix invariant to isotropic
    scaling of the features: squared distances and bandwidth both pick up the
    factor [c^2], which cancels in the exponent. *)
Theorem gram_rbf_scale_invariant (x : ndarray) (c threshold : R) :
  c <> 0 -> rbf_spec.bandwidth x threshold <> 0 ->
  exists k k', gram_rbf (mul_scalar x c) threshold = Ok k
    /\ gram_rbf x threshold = Ok k'
    /\ array_eq k k'.
Proof.
  intros Hc _.
  destruct (gram_rbf_eval (mul_scalar x c) threshold) as [k [Hk [H0 [H1 Hitem]]]].
  destruct (gram_rbf_eval x threshold) as [k' [Hk' [H0' [H1' Hitem']]]].
  cbn [mul_scalar np.map shape0 shape1 item] in H0, H1, Hitem.
  cbn [shape0 shape1 item] in H0', H1', Hitem'.
  exists k, k'. split; [exact Hk|split; [exact Hk'|]].
  unfold array_eq. split; [lia|split; [lia|]].
  intros i j Hi Hj. rewrite Hitem, Hitem' by lia.
  unfold rbf_spec.kernel. rewrite sq_distance_scale, bandwidth_scale by exact Hc.
  f_equal.
  replace (- (c * c * rbf_spec.sq_distance x i j))
    with (c * c * - rbf_spec.sq_distance x i j) by ring.
  replace (2 * (c * c * rbf_spec.bandwidth x threshold))
    with (c * c * 2 * rbf_spec.bandwidth x threshold) by ring.
  rewrite scaled_quotient by nra. reflexivity.
Qed.

Lemma gram_rbf_scale_invariant_witness :
  exists k k', gram_rbf (mul_scalar two_points 3) 1 = Ok k
    /\ gram_rbf two_points 1 = Ok k'
    /\ array_eq k k'.
Proof.
  apply (gram_rbf_scale_invariant two_points 3 1).
  - lra.
  - rewrite two_points_bandwidth. lra.
Defined.

(** ** Self-similarity in feature space and for CCA *)

(** X17: biased [feature_space_linear_cka] of a feature matrix with itself
    is one, as soon as one of its columns is not constant. *)
Theorem feature_space_linear_cka_self (x : ndarray) (i a : nat) :
  (i < shape0 x)%nat -> (a < shape1 x)%nat -> item (column_centered x) i a <> 0 ->
  feature_space_linear_cka x x false = Ok 1.
Proof.
  intros Hi Ha Hx.
  rewrite (fslc_eval x x false eq_refl) by discriminate. f_equal.
  unfold fslc_value. cbv zeta.
  pose proof (frob2_xT_y_positive (column_centered x) i a Hi Ha Hx) as P.
  change (shape1 (column_centered x)) with (shape1 x) in P.
  rewrite sqrt_sqrt by lra. apply Rdiv_diag. lra.
Qed.

Lemma feature_space_linear_cka_self_witness :
  feature_space_linear_cka kink3 kink3 false = Ok 1.
Proof.
  apply (feature_space_linear_cka_self kink3 0 0); try (cbn; lia).
  cbn [kink3 column_centered array shape0 shape1 item List.length nth rsum].
  simpl INR. lra.
Defined.

Lemma frob2_identity (d : nat) (f : nat -> nat -> R) :
  (forall a b, (a < d)%nat -> (b < d)%nat -> f a b = if (a =? b)%nat then 1 else 0) ->
  frob2 d d f = INR d.
Proof.
  intros H. unfold frob2, rsum2.
  rewrite (rsum_ext d _ (fun _ => 1)); [rewrite rsum_const; ring|].
  intros a Ha.
  rewrite (rsum_ext d _ (fun b => if (b =? a)%nat then 1 else 0)).
  - apply (rsum_delta d a (fun _ => 1) Ha).
  - intros b Hb. rewrite (H a b Ha Hb), (Nat.eqb_sym a b).
    destruct (b =? a)%nat; ring.
Qed.

(** X18: [cca] of a feature matrix with itself is one when the [q] that
    [np.linalg.qr] returns has as many columns as the features and these
    columns are orthonormal. *)
Theorem cca_self (qr : ndarray -> ndarray * ndarray) (x : ndarray) :
  (0 < shape1 x)%nat -> shape1 (fst (qr x)) = shape1 x ->
  (forall a b, (a < shape1 x)%nat -> (b < shape1 x)%nat ->
     xT_y (fst (qr x)) (fst (qr x)) a b = if (a =? b)%nat then 1 else 0) ->
  cca qr x x = Ok 1.
Proof.
  intros Hd E1 Ho.
  rewrite (cca_eval qr x x eq_refl). f_equal.
  rewrite E1, Nat.min_id, (frob2_identity (shape1 x) _ Ho).
  apply Rdiv_diag. apply INR_pos_nonzero. exact Hd.
Qed.

Lemma gram_schmidt_ramp4_orthonormal (a b : nat) :
  (a < shape1 ramp4)%nat -> (b < shape1 ramp4)%nat ->
  xT_y (fst (gram_schmidt_qr ramp4)) (fst (gram_schmidt_qr ramp4)) a b
  = if (a =? b)%nat then 1 else 0.
Proof.
  cbn [ramp4 array shape1 List.length List.hd]. intros Ha Hb.
  replace a with O by lia. replace b with O by lia. cbn [Nat.eqb].
  unfold xT_y.
  cbn [gram_schmidt_qr fst shape0 shape1 ramp4 array List.length List.hd Nat.min
       item gram_schmidt_columns app nth fold_right rsum].
  set (s := sqrt _).
  assert (Hs : s * s = 21) by (unfold s; rewrite sqrt_sqrt; lra).
  assert (Hs0 : s <> 0) by (intros Z; rewrite Z in Hs; lra).
  replace (0 + (0 - 0) / s * ((0 - 0) / s) + (1 - 0) / s * ((1 - 0) / s)
           + (2 - 0) / s * ((2 - 0) / s) + (4 - 0) / s * ((4 - 0) / s))
    with (21 / (s * s)) by (field; exact Hs0).
  rewrite Hs. field.
Qed.

Lemma cca_self_witness : cca gram_schmidt_qr ramp4 ramp4 = Ok 1.
Proof.
  apply (cca_self gram_schmidt_qr ramp4).
  - cbn. lia.
  - reflexivity.
  - exact gram_schmidt_ramp4_orthonormal.
Defined.

(** ** Offsets that centring removes *)

Lemma centered_biased_translate (n : nat) (t t' : nat -> nat -> R) (a : nat -> R)
    (i j : nat) :
  (0 < n)%nat ->
  (forall i j, (i < n)%nat -> (j < n)%nat -> t i j = t' i j + a i + a j) ->
  (i < n)%nat -> (j < n)%nat ->
  centered_biased n t i j = centered_biased n t' i j.
Proof.
  intros Hn Ht Hi Hj. pose proof (INR_pos_nonzero n Hn) as Hn0.
  assert (Hm : forall k, (k < n)%nat ->
    biased_means n t k = biased_means n t' k + rsum n a / INR n + a k).
  { intros k Hk. unfold biased_means.
    rewrite (rsum_ext n (fun l => t l k) (fun l => t' l k + a l + a k))
      by (intros l Hl; now apply Ht).
    rewrite !rsum_plus, rsum_const. field. exact Hn0. }
  assert (Hs : forall k, (k < n)%nat -> biased_shift n t k = biased_shift n t' k + a k).
  { intros k Hk. unfold biased_shift. rewrite (Hm k Hk).
    rewrite (rsum_ext n (biased_means n t)
               (fun l => biased_means n t' l + rsum n a / INR n + a l)) by exact Hm.
    rewrite !rsum_plus, rsum_const. field. exact Hn0. }
  unfold centered_biased. rewrite (Ht i j Hi Hj), (Hs i Hi), (Hs j Hj). ring.
Qed.

(** X19: [center_gram] removes row and column offsets: on a symmetric [G],
    centring [G + a[:, None] + a[None, :]] gives what centring [G] gives, in
    both modes; a constant added to every entry is the case of a constant
    [a]. *)
Theorem center_gram_offset_invariant (gram : ndarray) (a : ndarray1) (unbiased : bool) :
  symmetric gram -> len a = shape0 gram -> (0 < shape0 gram)%nat ->
  (unbiased = true -> (3 <= shape0 gram)%nat) ->
  exists c c',
    (g1 <- np.add gram (np.col a) ;; g2 <- np.add g1 (np.row a) ;;
     center_gram g2 unbiased) = Ok c
    /\ center_gram gram unbiased = Ok c'
    /\ array_eq c c'.
Proof.
  intros Hsym Ha Hn Hu. destruct Hsym as [Hsq Hij]. unfold square in Hsq.
  unfold np.add. rewrite (binop_col Rplus gram a Ha). cbn [bind].
  rewrite binop_row by (cbn; lia). cbn [bind].
  set (g2 := mk2 _ _ _).
  assert (Eg : forall i j, (i < shape0 gram)%nat -> (j < shape0 gram)%nat ->
                 item g2 i j = item gram i j + at1 a i + at1 a j).
  { intros i j Hi Hj. unfold g2. cbn [item].
    rewrite bitem_row by lia. rewrite bitem_in by (cbn; lia). cbn [item].
    rewrite bitem_col by lia. rewrite bitem_in by lia. reflexivity. }
  assert (S2 : symmetric g2).
  { split; [exact Hsq|]. change (shape0 g2) with (shape0 gram).
    intros i j Hi Hj. rewrite !Eg by assumption. rewrite (Hij i j Hi Hj). ring. }
  destruct (center_gram_close g2 unbiased (proj1 S2) (symmetric_close _ S2))
    as [c [Hc [H0 [H1 Hitem]]]].
  destruct (center_gram_close gram unbiased Hsq
              (symmetric_close _ (conj Hsq Hij))) as [c' [Hc' [H0' [H1' Hitem']]]].
  change (shape0 g2) with (shape0 gram) in H0, H1, Hitem.
  exists c, c'. split; [exact Hc|split; [exact Hc'|]].
  unfold array_eq. split; [lia|split; [lia|]].
  intros i j Hi Hj. rewrite Hitem, Hitem' by lia.
  destruct unbiased; unfold centered.
  - apply (centered_unbiased_translate (shape0 gram) (Hu eq_refl) _ _ (at1 a));
      [|lia|lia].
    intros i' j' Hi' Hj' _. now apply Eg.
  - apply (centered_biased_translate (shape0 gram) _ _ (at1 a)); try lia.
    exact Eg.
Qed.

Lemma center_gram_offset_invariant_witness :
  exists c c',
    (g1 <- np.add sym4 (np.col (mk1 4 (fun i => INR i))) ;;
     g2 <- np.add g1 (np.row (mk1 4 (fun i => INR i))) ;;
     center_gram g2 true) = Ok c
    /\ center_gram sym4 true = Ok c'
    /\ array_eq c c'.
Proof.
  apply (center_gram_offset_invariant sym4 (mk1 4 (fun i => INR i)) true).
  - exact symmetric_sym4.
  - reflexivity.
  - cbn. lia.
  - intros _. cbn. lia.
Defined.

(** X20: the RBF Gram matrix depends on the features through their pairwise
    distances only: adding one vector to every row of [X] changes nothing. *)
Theorem gram_rbf_shift_invariant (x : ndarray) (v : ndarray1) (threshold : R) :
  len v = shape1 x ->
  exists k k',
    (x' <- np.add x (np.row v) ;; gram_rbf x' threshold) = Ok k
    /\ gram_rbf x threshold = Ok k'
    /\ array_eq k k'.
Proof.
  intros Hv. unfold np.add. rewrite (binop_row Rplus x v Hv). cbn [bind].
  set (x' := mk2 _ _ _).
  destruct (gram_rbf_eval x' threshold) as [k [Hk [H0 [H1 Hitem]]]].
  destruct (gram_rbf_eval x threshold) as [k' [Hk' [H0' [H1' Hitem']]]].
  change (shape0 x') with (shape0 x) in H0, H1, Hitem.
  cbn [shape0 shape1 item] in H0, H1, Hitem, H0', H1', Hitem'.
  assert (Ed : forall i j, (i < shape0 x)%nat -> (j < shape0 x)%nat ->
                 rbf_spec.sq_distance x' i j = rbf_spec.sq_distance x i j).
  { intros i j Hi Hj. rewrite !sq_distance_euclid.
    change (shape1 x') with (shape1 x).
    apply rsum_ext; intros l Hl. unfold x'. cbn [item].
    rewrite !(bitem_in x) by assumption. rewrite !bitem_row by lia. ring. }
  exists k, k'. split; [exact Hk|split; [exact Hk'|]].
  unfold array_eq. split; [lia|split; [lia|]].
  intros i j Hi Hj. rewrite Hitem, Hitem' by lia.
  unfold rbf_spec.kernel, rbf_spec.bandwidth.
  change (shape0 x') with (shape0 x).
  rewrite (all_entries_ext (shape0 x) (rbf_spec.sq_distance x')
             (rbf_spec.sq_distance x) Ed).
  rewrite Ed by lia. reflexivity.
Qed.

Lemma gram_rbf_shift_invariant_witness :
  exists k k',
    (x' <- np.add bend4 (np.row (mk1 2 (fun l => INR l + 7))) ;; gram_rbf x' 1) = Ok k
    /\ gram_rbf bend4 1 = Ok k'
    /\ array_eq k k'.
Proof.
  apply (gram_rbf_shift_invariant bend4 (mk1 2 (fun l => INR l + 7)) 1).
  reflexivity.
Defined.
